(** * The streaming transcription session of [main.py]

    A shallow embedding of [websocket_transcribe] (main.py, lines 34-135):
    the handshake, the receive loop, the two [except] clauses and the
    [finally] block.  The WebSocket transport and the Vosk recognizer are
    external; they appear here as a scripted world and as an interface
    record.  [print] writes to stdout; it matters to the handler only when
    it raises, which is what the model keeps of it. *)

From Stdlib Require Import ZArith String Ascii List Bool Lia.
From Stdlib Require Import Strings.Byte Floats.SpecFloat.
Import ListNotations.
Local Open Scope string_scope.
Local Open Scope Z_scope.
#[local] Set Warnings "-register-all".

(** ** Python values *)

(** What [json.loads] returns: a JSON document as a Python object.  A
    [dict] keeps insertion order, so an object is an association list; the
    first binding of a key is the one [dict.get] sees. *)
Inductive json : Type :=
| JNull
| JBool (b : bool)
| JInt (z : Z)
| JFloat (f : spec_float)
| JStr (s : string)
| JArr (items : list json)
| JObj (fields : list (string * json)).

(** The exceptions the handler distinguishes: [except WebSocketDisconnect]
    (line 111) and [except Exception] (line 113).  [Exception msg] stands
    for every other subclass of [Exception], with [str(exc) = msg]. *)
Inductive exn : Type :=
| WebSocketDisconnect
| Exception (msg : string).

Definition SAMPLE_RATE_DEFAULT : Z := 16000.

Definition type_name (v : json) : string :=
  match v with
  | JNull => "NoneType"
  | JBool _ => "bool"
  | JInt _ => "int"
  | JFloat _ => "float"
  | JStr _ => "str"
  | JArr _ => "list"
  | JObj _ => "dict"
  end.

Fixpoint lookup (k : string) (fields : list (string * json)) : option json :=
  match fields with
  | [] => None
  | (k', v) :: rest => if String.eqb k k' then Some v else lookup k rest
  end.

(** [d.get(k, default)]: only a [dict] has the method; on anything else
    the attribute access raises [AttributeError]. *)
Definition dict_get (fields : list (string * json)) (k : string) (default : json) : json :=
  match lookup k fields with Some v => v | None => default end.

Definition py_get (d : json) (k : string) (default : json) : exn + json :=
  match d with
  | JObj fields => inr (dict_get fields k default)
  | _ => inl (Exception ("'" ++ type_name d ++ "' object has no attribute 'get'"))
  end.

(** Python truthiness, as used by [if text:] and [if partial:]. *)
Definition float_is_zero (f : spec_float) : bool :=
  match f with S754_zero _ => true | _ => false end.

Definition truthy (v : json) : bool :=
  match v with
  | JNull => false
  | JBool b => b
  | JInt z => negb (z =? 0)
  | JFloat f => negb (float_is_zero f)
  | JStr s => negb (String.eqb s "")
  | JArr items => match items with [] => false | _ => true end
  | JObj fields => match fields with [] => false | _ => true end
  end.

(** [v == s] for a [str] literal [s]: only an equal string compares equal. *)
Definition py_eq_str (v : json) (s : string) : bool :=
  match v with JStr s' => String.eqb s' s | _ => false end.

(** [int(f)] for a float: truncation towards zero; NaN and the infinities
    raise. *)
Definition float_trunc (f : spec_float) : exn + Z :=
  match f with
  | S754_zero _ => inr 0
  | S754_infinity _ => inl (Exception "cannot convert float infinity to integer")
  | S754_nan => inl (Exception "cannot convert float NaN to integer")
  | S754_finite sign m e =>
      let mag := if 0 <=? e then Z.pos m * 2 ^ e else Z.pos m / 2 ^ (- e) in
      inr (if sign then - mag else mag)
  end.

Section PythonInt.
(** [int(s)] for a [str] depends on the interpreter (accepted digits,
    underscores, the limit on the number of digits); it is a parameter. *)
Variable int_of_str : string -> exn + Z.

Definition py_int (v : json) : exn + Z :=
  match v with
  | JInt z => inr z
  | JBool b => inr (if b then 1 else 0)
  | JFloat f => float_trunc f
  | JStr s => int_of_str s
  | _ => inl (Exception
           ("int() argument must be a string, a bytes-like object or a real number, not '"
              ++ type_name v ++ "'"))
  end.
End PythonInt.

(** ** The interpreter and the server *)

(** What the handler takes from its surroundings: [int] on a [str];
    whether [sys.stdout] can encode [str(v)] ([Some msg]: writing it
    raises [UnicodeEncodeError] with that message); and the message of the
    exception [receive_text] and [json.loads] end in on a frame without
    text ([KeyError] when the ASGI message has no ["text"] key,
    [TypeError] when it holds [None]). *)
Record Runtime : Type := {
  int_of_str : string -> exn + Z;
  stdout_error : json -> option string;
  no_text_error : string
}.

Fixpoint is_ascii (s : string) : bool :=
  match s with
  | EmptyString => true
  | String (Ascii _ _ _ _ _ _ _ high) rest => negb high && is_ascii rest
  end.

(** [str(v)] is plain ASCII: numbers, booleans, [None], ASCII strings.
    (For lists and dicts the answer is left to [stdout_error].) *)
Definition ascii_only (v : json) : bool :=
  match v with
  | JNull => true
  | JBool _ => true
  | JInt _ => true
  | JFloat _ => true
  | JStr s => is_ascii s
  | JArr _ => false
  | JObj _ => false
  end.

(** Writing [str(v)] to stdout: ASCII text is encodable in every stdout
    encoding; for the rest the runtime decides. *)
Definition print_error (rt : Runtime) (v : json) : option string :=
  if ascii_only v then None else stdout_error rt v.

(** The first value of an f-string that stdout cannot encode. *)
Fixpoint first_error (rt : Runtime) (vs : list json) : option string :=
  match vs with
  | [] => None
  | v :: rest => match print_error rt v with
                 | Some msg => Some msg
                 | None => first_error rt rest
                 end
  end.

(** ** The recognizer *)

(** The part of [vosk.KaldiRecognizer] the handler uses.  A handle value
    is the state of the recognizer object; every method returns the state
    it leaves behind.  A failure [inl msg] is an [Exception] with that
    message (Vosk raises plain [Exception]s).  [Result], [PartialResult]
    and [FinalResult] stand for the method followed by [json.loads], as in
    [json.loads(recognizer.Result())]; [KaldiRecognizer] stands for
    [create_recognizer] (lines 23-26). *)
Record Vosk : Type := {
  handle : Type;
  KaldiRecognizer : Z -> string + handle;
  AcceptWaveform : handle -> list byte -> (string + bool) * handle;
  Result : handle -> (string + json) * handle;
  PartialResult : handle -> (string + json) * handle;
  FinalResult : handle -> (string + json) * handle
}.

(** ** The transport *)

(** The outcome of [json.loads] on the text of a frame: the text is not
    JSON ([JSONDecodeError]); or the decoder gives up with another
    exception ([ValueError] on an integer beyond the digit limit,
    [RecursionError] on deep nesting); or it returns a value. *)
Inductive loads : Type :=
| JSONDecodeError (msg : string)
| LoadsRaised (msg : string)
| Loaded (v : json).

(** An ASGI message as [websocket.receive()] returns it.  [text] and
    [bytes] are [None] when the key is missing or holds [None]. *)
Inductive message : Type :=
| Disconnect
| Receive (text : option loads) (bytes : option (list byte)).

(** What the handler did, in order. *)
Inductive action : Type :=
| Created (sample_rate : Z)
| Fed (audio : list byte)
| AskedResult
| AskedPartial
| Flushed
| Sent (ev : json)
| SendFailed (ev : json) (e : exn)
| CloseCalled.

(** [inbox]: the messages the client will send, [transport]: the outcome of
    each coming [send_json] ([None]: written; [Some e]: raises [e]; a write
    past the end of the script succeeds), [close_raises]: the outcome of
    [websocket.close()], [log]: the trace so far. *)
Record world : Type := {
  inbox : list message;
  transport : list (option exn);
  close_raises : option exn;
  log : list action
}.

Definition logged (a : action) (w : world) : world :=
  {| inbox := inbox w; transport := transport w;
     close_raises := close_raises w; log := log w ++ [a] |}.

Definition pop_inbox (w : world) : world :=
  {| inbox := tl (inbox w); transport := transport w;
     close_raises := close_raises w; log := log w |}.

Definition pop_transport (w : world) : world :=
  {| inbox := inbox w; transport := tl (transport w);
     close_raises := close_raises w; log := log w |}.

(** ** Outbound events (lines 86-92, 104-109, 115, 124-130) *)

Definition segment_event (text confidence pid room : json) : json :=
  JObj [("type", JStr "segment"); ("text", text); ("confidence", confidence);
        ("participantIdentity", pid); ("roomId", room)].

Definition partial_event (text pid room : json) : json :=
  JObj [("type", JStr "partial"); ("text", text);
        ("participantIdentity", pid); ("roomId", room)].

Definition error_event (msg : string) : json :=
  JObj [("type", JStr "error"); ("message", JStr msg)].

(** ** The handler *)

Section Handler.
Variable rt : Runtime.
Variable E : Vosk.

(** The local variables of [websocket_transcribe] (lines 38-40) and the
    world it acts on. *)
Record session : Type := {
  recognizer : option (handle E);
  participant_identity : json;
  room_id : json;
  ws : world
}.

Definition set_ws (w : world) (s : session) : session :=
  {| recognizer := recognizer s; participant_identity := participant_identity s;
     room_id := room_id s; ws := w |}.

Definition set_recognizer (r : option (handle E)) (s : session) : session :=
  {| recognizer := r; participant_identity := participant_identity s;
     room_id := room_id s; ws := ws s |}.

Definition set_participant_identity (v : json) (s : session) : session :=
  {| recognizer := recognizer s; participant_identity := v;
     room_id := room_id s; ws := ws s |}.

Definition set_room_id (v : json) (s : session) : session :=
  {| recognizer := recognizer s; participant_identity := participant_identity s;
     room_id := v; ws := ws s |}.

(** A computation of the handler: it reads and writes the session and
    either returns or raises; the session it leaves behind is kept in
    both cases. *)
Definition M (A : Type) : Type := session -> (exn + A) * session.

Definition ret {A} (a : A) : M A := fun s => (inr a, s).
Definition raise {A} (e : exn) : M A := fun s => (inl e, s).
Definition bind {A B} (c : M A) (k : A -> M B) : M B :=
  fun s => match c s with
           | (inr a, s') => k a s'
           | (inl e, s') => (inl e, s')
           end.
Definition lift {A} (r : exn + A) : M A :=
  fun s => (r, s).
Definition get_session : M session := fun s => (inr s, s).
Definition modify (f : session -> session) : M unit := fun s => (inr tt, f s).

(** [try: c  except Exception: pass].  Both constructors of [exn] are
    subclasses of [Exception]. *)
Definition swallow (c : M unit) : M unit :=
  fun s => match c s with
           | (_, s') => (inr tt, s')
           end.

Notation "x <- c ;; k" := (bind c (fun x => k))
  (at level 61, c at next level, right associativity).
Notation "c ;;; k" := (bind c (fun _ => k))
  (at level 61, right associativity).

(** [print(f"...")] with the interpolated values [vs], in the order they
    appear in the line. *)
Definition print (vs : list json) : M unit :=
  fun s => match first_error rt vs with
           | Some msg => (inl (Exception msg), s)
           | None => (inr tt, s)
           end.

(** [await websocket.send_json(ev)] *)
Definition send_json (ev : json) : M unit :=
  fun s =>
    let w := ws s in
    match transport w with
    | Some e :: _ => (inl e, set_ws (logged (SendFailed ev e) (pop_transport w)) s)
    | _ => (inr tt, set_ws (logged (Sent ev) (pop_transport w)) s)
    end.

(** [await websocket.close()] *)
Definition close : M unit :=
  fun s =>
    let w := logged CloseCalled (ws s) in
    match close_raises w with
    | Some e => (inl e, set_ws w s)
    | None => (inr tt, set_ws w s)
    end.

(** A method call on the local [recognizer]; on [None] the attribute
    access itself raises. *)
Definition call {A} (name : string) (a : action)
    (method : handle E -> (string + A) * handle E) : M A :=
  fun s =>
    match recognizer s with
    | None =>
        (inl (Exception ("'NoneType' object has no attribute '" ++ name ++ "'")), s)
    | Some r =>
        let s1 := set_ws (logged a (ws s)) s in
        match method r with
        | (inr v, r') => (inr v, set_recognizer (Some r') s1)
        | (inl msg, r') => (inl (Exception msg), set_recognizer (Some r') s1)
        end
    end.

(** [recognizer = create_recognizer(sample_rate)] (line 50) *)
Definition create_recognizer (sample_rate : Z) : M unit :=
  fun s =>
    match KaldiRecognizer E sample_rate with
    | inr r => (inr tt, set_recognizer (Some r) (set_ws (logged (Created sample_rate) (ws s)) s))
    | inl msg => (inl (Exception msg), s)
    end.

(** [init = await websocket.receive_text()] then [json.loads(init)]
    (lines 43-44): a disconnect message raises [WebSocketDisconnect], a
    message without text has no usable ["text"] entry, and whatever
    [json.loads] raises goes on. *)
Definition receive_init (m : message) : M json :=
  match m with
  | Disconnect => raise WebSocketDisconnect
  | Receive None _ => raise (Exception (no_text_error rt))
  | Receive (Some (JSONDecodeError msg)) _ => raise (Exception msg)
  | Receive (Some (LoadsRaised msg)) _ => raise (Exception msg)
  | Receive (Some (Loaded v)) _ => ret v
  end.

(** Lines 43-50, on the first message [m]. *)
Definition handshake (m : message) : M unit :=
  init_payload <- receive_init m ;;
  v <- lift (py_get init_payload "sampleRate" (JInt SAMPLE_RATE_DEFAULT)) ;;
  sample_rate <- lift (py_int (int_of_str rt) v) ;;
  s <- get_session ;;
  pid <- lift (py_get init_payload "participantIdentity" (participant_identity s)) ;;
  modify (set_participant_identity pid) ;;;
  s <- get_session ;;
  room <- lift (py_get init_payload "roomId" (room_id s)) ;;
  modify (set_room_id room) ;;;
  s <- get_session ;;
  print [JInt sample_rate; participant_identity s; room_id s] ;;;
  create_recognizer sample_rate.

Inductive flow : Type := Continue | Break.

(** Lines 72-110: one audio chunk, with the log lines written on the
    way (72-74, 76-78 or 95-97, 82-84 or 100-102). *)
Definition feed (audio_bytes : list byte) : M unit :=
  let size := JInt (Z.of_nat (length audio_bytes)) in
  s <- get_session ;;
  print [size; participant_identity s; room_id s] ;;;
  final <- call "AcceptWaveform" (Fed audio_bytes)
             (fun r => AcceptWaveform E r audio_bytes) ;;
  if (final : bool) then
    print [size; participant_identity s; room_id s] ;;;
    result <- call "Result" AskedResult (Result E) ;;
    text <- lift (py_get result "text" (JStr "")) ;;
    if truthy text then
      print [room_id s; participant_identity s; text] ;;;
      confidence <- lift (py_get result "confidence" JNull) ;;
      send_json (segment_event text confidence (participant_identity s) (room_id s))
    else ret tt
  else
    print [size; participant_identity s; room_id s] ;;;
    result <- call "PartialResult" AskedPartial (PartialResult E) ;;
    partial <- lift (py_get result "partial" JNull) ;;
    if truthy partial then
      print [room_id s; participant_identity s; partial] ;;;
      send_json (partial_event partial (participant_identity s) (room_id s))
    else ret tt.

(** Lines 55-110: the body of [while True] on the received [m]. *)
Definition loop_body (m : message) : M flow :=
  match m with
  | Disconnect => ret Break
  | Receive (Some (JSONDecodeError _)) _ => ret Continue
  | Receive (Some (LoadsRaised msg)) _ => raise (Exception msg)
  | Receive (Some (Loaded data)) _ =>
      ty <- lift (py_get data "type" JNull) ;;
      if py_eq_str ty "stop" then ret Break else ret Continue
  | Receive None None => ret Continue
  | Receive None (Some audio_bytes) => feed audio_bytes ;;; ret Continue
  end.

(** Lines 111-117: the two [except] clauses. *)
Definition on_exception (e : exn) : M unit :=
  match e with
  | WebSocketDisconnect => ret tt
  | Exception msg => swallow (send_json (error_event msg))
  end.

(** Lines 118-135: the [finally] block. *)
Definition finalize : M unit :=
  s <- get_session ;;
  match recognizer s with
  | Some _ =>
      final <- call "FinalResult" Flushed (FinalResult E) ;;
      text <- lift (py_get final "text" JNull) ;;
      if truthy text then
        confidence <- lift (py_get final "confidence" JNull) ;;
        s <- get_session ;;
        send_json (segment_event text confidence (participant_identity s) (room_id s))
      else ret tt
  | None => ret tt
  end ;;;
  swallow close.

(** ** Control points and steps *)

(** Where the handler is: before the handshake (line 43), at the top of
    the loop (line 53), entering the [except] clauses with a raised
    exception, or entering [finally] (with the exception that is still
    to be re-raised, if any). *)
Inductive pc : Type :=
| AtInit
| AtLoop
| AtExcept (e : exn)
| AtFinally (pending : option exn).

(** A running handler, or one that has returned ([None]) or let an
    exception escape ([Some e]); its locals are gone then. *)
Inductive config : Type :=
| Running (p : pc) (s : session)
| Finished (escaped : option exn) (w : world).

(** The session after [websocket.accept()] (lines 36-40). *)
Definition initial (w : world) : config :=
  Running AtInit
    {| recognizer := None; participant_identity := JStr "unknown";
       room_id := JStr "unknown"; ws := w |}.

Definition receive (s : session) : option (message * session) :=
  match inbox (ws s) with
  | [] => None
  | m :: _ => Some (m, set_ws (pop_inbox (ws s)) s)
  end.

(** One step: up to the next [await websocket.receive()], or through one
    exception clause, or through [finally].  [None]: the handler has
    finished, or it waits for a message that the script does not have. *)
Definition step (c : config) : option config :=
  match c with
  | Finished _ _ => None
  | Running AtInit s =>
      match receive s with
      | None => None
      | Some (m, s0) =>
          match handshake m s0 with
          | (inr _, s') => Some (Running AtLoop s')
          | (inl e, s') => Some (Running (AtExcept e) s')
          end
      end
  | Running AtLoop s =>
      match receive s with
      | None => None
      | Some (m, s0) =>
          match loop_body m s0 with
          | (inr Continue, s') => Some (Running AtLoop s')
          | (inr Break, s') => Some (Running (AtFinally None) s')
          | (inl e, s') => Some (Running (AtExcept e) s')
          end
      end
  | Running (AtExcept e) s =>
      match on_exception e s with
      | (inr _, s') => Some (Running (AtFinally None) s')
      | (inl e', s') => Some (Running (AtFinally (Some e')) s')
      end
  | Running (AtFinally pending) s =>
      match finalize s with
      | (inr _, s') => Some (Finished pending (ws s'))
      | (inl e, s') => Some (Finished (Some e) (ws s'))
      end
  end.

Fixpoint run (n : nat) (c : config) : config :=
  match n with
  | O => c
  | S n' => match step c with
            | Some c' => run n' c'
            | None => c
            end
  end.

(** [websocket_transcribe] on a freshly accepted connection, followed for
    [n] steps. *)
Definition websocket_transcribe (n : nat) (w : world) : config :=
  run n (initial w).

Inductive reachable : config -> Prop :=
| reach_initial inbox0 transport0 close0 :
    reachable (initial {| inbox := inbox0; transport := transport0;
                          close_raises := close0; log := [] |})
| reach_step c c' : reachable c -> step c = Some c' -> reachable c'.
End Handler.

Arguments Running {E} p s.
Arguments Finished {E} escaped w.
Arguments recognizer {E} s.
Arguments participant_identity {E} s.
Arguments room_id {E} s.
Arguments ws {E} s.
Arguments step rt {E} c.
Arguments run rt {E} n c.
Arguments reachable rt {E} c.

(** ** Session states and observers *)

(** The states of the session protocol, read off the control points: the
    [except] clauses and the [finally] block are the termination phase, a
    finished handler is closed. *)
Inductive state : Type := AwaitingInit | Streaming | Terminating | Closed.

Definition state_of {E} (c : config E) : state :=
  match c with
  | Running AtInit _ => AwaitingInit
  | Running AtLoop _ => Streaming
  | Running (AtExcept _) _ => Terminating
  | Running (AtFinally _) _ => Terminating
  | Finished _ _ => Closed
  end.

Definition world_of {E} (c : config E) : world :=
  match c with
  | Running _ s => ws s
  | Finished _ w => w
  end.

(** Does the session hold a recognizer handle?  The local [recognizer] is
    bound to one while the handler runs; a finished handler holds nothing. *)
Definition has_handle {E} (c : config E) : bool :=
  match c with
  | Running _ s => match recognizer s with Some _ => true | None => false end
  | Finished _ _ => false
  end.

Definition count (p : action -> bool) (l : list action) : nat :=
  length (filter p l).

Definition is_created (a : action) : bool :=
  match a with Created _ => true | _ => false end.
Definition is_flush (a : action) : bool :=
  match a with Flushed => true | _ => false end.
Definition is_close (a : action) : bool :=
  match a with CloseCalled => true | _ => false end.

(** The recognizers created, the [FinalResult] calls and the
    [websocket.close()] calls of a trace. *)
Definition creations (l : list action) : nat := count is_created l.
Definition flushes (l : list action) : nat := count is_flush l.
Definition closes (l : list action) : nat := count is_close l.

(** The events handed to [send_json], in order, and those of them that the
    transport wrote to the client. *)
Definition emitted (l : list action) : list json :=
  flat_map (fun a => match a with
                     | Sent ev => [ev]
                     | SendFailed ev _ => [ev]
                     | _ => []
                     end) l.

Definition delivered (l : list action) : list json :=
  flat_map (fun a => match a with Sent ev => [ev] | _ => [] end) l.

(** An event whose ["type"] is [ty]. *)
Definition event_is (ty : string) (ev : json) : bool :=
  match py_get ev "type" JNull with
  | inr v => py_eq_str v ty
  | inl _ => false
  end.

Definition events_of (ty : string) (evs : list json) : list json :=
  filter (event_is ty) evs.

(** A control frame [{"type": "stop", ...}]. *)
Definition is_stop (m : message) : Prop :=
  exists fields b,
    m = Receive (Some (Loaded (JObj fields))) b /\
    lookup "type" fields = Some (JStr "stop").


(** Feeding [audio] to the recognizer [r] raises [Exception msg]: in
    [AcceptWaveform], or in the [Result] or [PartialResult] that follows. *)
Definition feed_raises (E : Vosk) (r : handle E) (audio : list byte) (msg : string) : Prop :=
  (exists r1, AcceptWaveform E r audio = (inl msg, r1)) \/
  (exists r1 r2, AcceptWaveform E r audio = (inr true, r1) /\
                 Result E r1 = (inl msg, r2)) \/
  (exists r1 r2, AcceptWaveform E r audio = (inr false, r1) /\
                 PartialResult E r1 = (inl msg, r2)).

(** The transport takes the next write. *)
Definition writable (w : world) : Prop :=
  match transport w with
  | Some _ :: _ => False
  | _ => True
  end.

(** The handshake has completed: a recognizer was created. *)
Definition handshake_completed {E} (c : config E) : Prop :=
  creations (log (world_of c)) = 1%nat.

(** ** The specification's reading of the handshake *)


(** ** A recognizer and an [int] for examples *)

(** A test double: every byte of audio is one character of text; a chunk
    holding byte [x00] ends the utterance, one holding [xff] makes the feed
    fail, one holding [xfe] makes the final flush fail. *)
Record toy : Type := { toy_rate : Z; heard : list byte; broken : bool }.

Definition toy_text (h : toy) : json := JStr (string_of_list_byte (heard h)).

Definition toy_clear (h : toy) : toy :=
  {| toy_rate := toy_rate h; heard := []; broken := broken h |}.

Definition is_mark (b : byte) : bool :=
  Byte.eqb b x00 || Byte.eqb b xfe || Byte.eqb b xff.

Definition toy_vosk : Vosk := {|
  handle := toy;
  KaldiRecognizer := fun sample_rate =>
    if 0 <? sample_rate
    then inr {| toy_rate := sample_rate; heard := []; broken := false |}
    else inl "Failed to create a recognizer";
  AcceptWaveform := fun h audio =>
    if existsb (Byte.eqb xff) audio
    then (inl "Failed to process waveform", h)
    else (inr (existsb (Byte.eqb x00) audio),
          {| toy_rate := toy_rate h;
             heard := heard h ++ filter (fun b => negb (is_mark b)) audio;
             broken := broken h || existsb (Byte.eqb xfe) audio |});
  Result := fun h => (inr (JObj [("text", toy_text h)]), toy_clear h);
  PartialResult := fun h => (inr (JObj [("partial", toy_text h)]), h);
  FinalResult := fun h =>
    if broken h
    then (inl "Failed to flush", h)
    else (inr (JObj [("text", toy_text h)]), toy_clear h)
|}.

(** Plain decimal literals only; enough for the examples. *)
Fixpoint digits (s : string) (acc : Z) : option Z :=
  match s with
  | EmptyString => Some acc
  | String c rest =>
      let n := Z.of_nat (nat_of_ascii c) in
      if (48 <=? n) && (n <=? 57) then digits rest (10 * acc + (n - 48)) else None
  end.

Definition toy_int (s : string) : exn + Z :=
  match s with
  | EmptyString => inl (Exception "invalid literal for int() with base 10: ''")
  | _ => match digits s 0 with
         | Some n => inr n
         | None => inl (Exception ("invalid literal for int() with base 10: '" ++ s ++ "'"))
         end
  end.

(** An interpreter whose stdout encodes ASCII only, behind a server that
    leaves the ["text"] key out of binary messages. *)
Definition toy_rt : Runtime := {|
  int_of_str := toy_int;
  stdout_error := fun _ =>
    Some "'ascii' codec can't encode character: ordinal not in range(128)";
  no_text_error := "'text'"
|}.

Definition script (msgs : list message) (sends : list (option exn)) : world :=
  {| inbox := msgs; transport := sends; close_raises := None; log := [] |}.

Definition text_frame (v : json) : message := Receive (Some (Loaded v)) None.
Definition audio_frame (s : string) : message := Receive None (Some (list_byte_of_string s)).

(** ** Sessions used in the examples *)

Definition handshake_alice : message :=
  text_frame (JObj [("sampleRate", JInt 16000);
                    ("participantIdentity", JStr "alice");
                    ("roomId", JStr "r1")]).

Definition stop_frame : message := text_frame (JObj [("type", JStr "stop")]).

Definition fresh_toy : handle toy_vosk :=
  {| toy_rate := 16000; heard := []; broken := false |}.

(** The session of [handshake_alice] once the handshake is done, with
    [msgs] still to come. *)
Definition streaming_alice (msgs : list message) (sends : list (option exn))
  : session toy_vosk :=
  {| recognizer := Some fresh_toy;
     participant_identity := JStr "alice";
     room_id := JStr "r1";
     ws := {| inbox := msgs; transport := sends; close_raises := None;
              log := [Created 16000] |} |}.

(** The same session after the chunk ["hel"]: the recognizer holds the
    text, the [partial] event has been written. *)
Definition heard_alice (msgs : list message) (sends : list (option exn))
  : session toy_vosk :=
  {| recognizer :=
       Some ({| toy_rate := 16000; heard := list_byte_of_string "hel";
                broken := false |} : handle toy_vosk);
     participant_identity := JStr "alice";
     room_id := JStr "r1";
     ws := {| inbox := msgs; transport := sends; close_raises := None;
              log := [Created 16000;
                      Fed (list_byte_of_string "hel");
                      AskedPartial;
                      Sent (JObj [("type", JStr "partial"); ("text", JStr "hel");
                                  ("participantIdentity", JStr "alice");
                                  ("roomId", JStr "r1")])] |} |}.

(** A chunk whose text is not ASCII: the two bytes of U+00E9. *)
Definition accented : list byte := [xc3; xa9].

(** The client sends an empty handshake and one chunk, then goes away;
    the transport takes the partial event and refuses the next write. *)
Definition disconnect_with_pending_text : world :=
  script [text_frame (JObj []); audio_frame "done"; Disconnect]
         [None; Some WebSocketDisconnect].

(** One chunk is heard, the next one makes the feed fail. *)
Definition feed_fails_after_audio : world :=
  script [text_frame (JObj []); audio_frame "hi"; Receive None (Some [xff])] [].

(** A chunk that makes the final flush fail, then a stop. *)
Definition flush_fails_on_stop : world :=
  script [text_frame (JObj []); Receive None (Some [xfe]); stop_frame] [].


(** A first frame that is not JSON. *)
Definition handshake_not_json : world :=
  script [Receive (Some (JSONDecodeError "Expecting value: line 1 column 1 (char 0)")) None] [].

(** ** The trace invariant *)

(** What holds of the trace at every control point: at most one recognizer
    is created, [FinalResult] and [close] are called at most once and only
    in [finally], the [error] event is sent at most once and only by the
    [except] clause, and nothing is flushed or emitted as a transcript
    before a recognizer exists. *)
Definition errors (l : list action) : nat :=
  length (events_of "error" (emitted l)).

Definition transcripts (l : list action) : list json :=
  events_of "segment" (emitted l) ++ events_of "partial" (emitted l).

Definition invariant {E} (c : config E) : Prop :=
  let l := log (world_of c) in
  (creations l <= 1)%nat /\
  (creations l = 0%nat -> transcripts l = []) /\
  match c with
  | Running AtInit s =>
      l = [] /\ recognizer s = None
  | Running AtLoop s =>
      recognizer s <> None /\ creations l = 1%nat /\
      flushes l = 0%nat /\ closes l = 0%nat /\ errors l = 0%nat
  | Running (AtExcept _) s =>
      (recognizer s <> None <-> creations l = 1%nat) /\
      flushes l = 0%nat /\ closes l = 0%nat /\ errors l = 0%nat
  | Running (AtFinally _) s =>
      (recognizer s <> None <-> creations l = 1%nat) /\
      flushes l = 0%nat /\ closes l = 0%nat /\ (errors l <= 1)%nat
  | Finished _ _ =>
      flushes l = creations l /\ (closes l <= 1)%nat /\ (errors l <= 1)%nat
  end.

(** At the top of the loop the two labels are values stdout can encode:
    the handshake has written them (line 48). *)
Definition labels_print (rt : Runtime) {E} (c : config E) : Prop :=
  match c with
  | Running AtLoop s =>
      print_error rt (participant_identity s) = None /\
      print_error rt (room_id s) = None
  | _ => True
  end.

(** ** Observers for whole sessions *)

Definition set_inbox (msgs : list message) (w : world) : world :=
  {| inbox := msgs; transport := transport w;
     close_raises := close_raises w; log := log w |}.

(** The chunks handed to [AcceptWaveform], in order. *)
Definition fed_audio (l : list action) : list (list byte) :=
  flat_map (fun a => match a with Fed audio => [audio] | _ => [] end) l.

(** The binary payloads of the frames that carry no text; a frame with
    text is a control frame whatever else it carries (line 58). *)
Definition audio_of (msgs : list message) : list (list byte) :=
  flat_map (fun m => match m with
                     | Receive None (Some audio) => [audio]
                     | _ => []
                     end) msgs.

(** An event of one of the three shapes, with the given labels. *)
Definition event_ok (pid room : json) (ev : json) : Prop :=
  (exists text,
      ev = JObj [("type", JStr "partial"); ("text", text);
                 ("participantIdentity", pid); ("roomId", room)]) \/
  (exists text confidence,
      ev = JObj [("type", JStr "segment"); ("text", text);
                 ("confidence", confidence);
                 ("participantIdentity", pid); ("roomId", room)]) \/
  (exists msg, ev = JObj [("type", JStr "error"); ("message", JStr msg)]).


(** A frame that makes the loop [break]. *)
Definition ends_loop (m : message) : Prop :=
  m = Disconnect \/ is_stop m.

(** How a handler finishes: nothing is pending when [finally] is entered;
    a handler that returns has called [close] last; one that lets an
    exception escape has flushed and has not called [close]. *)
Definition tidy {E} (c : config E) : Prop :=
  match c with
  | Running (AtFinally pending) _ => pending = None
  | Running _ _ => True
  | Finished None w => exists pre, log w = (pre ++ [CloseCalled])%list
  | Finished (Some _) w => closes (log w) = 0%nat /\ flushes (log w) = 1%nat
  end.

(** The handler is past the loop. *)
Definition past_loop {E} (c : config E) : Prop :=
  match c with
  | Running AtInit _ => False
  | Running AtLoop _ => False
  | _ => True
  end.

(** Every event emitted so far has one of the three shapes and the
    labels of the session. *)
Definition labelled {E} (c : config E) : Prop :=
  match c with
  | Running _ s =>
      Forall (event_ok (participant_identity s) (room_id s)) (emitted (log (ws s)))
  | Finished _ w =>
      exists pid room, Forall (event_ok pid room) (emitted (log w))
  end.

Definition errors_in (evs : list json) : nat :=
  length (events_of "error" evs).

(** The [error] event, when there is one, is the last event or is
    followed by one [segment] event only. *)
Definition error_is_late (evs : list json) : Prop :=
  errors_in evs = 0%nat \/
  exists pre msg post,
    evs = (pre ++ JObj [("type", JStr "error"); ("message", JStr msg)] :: post)%list /\
    errors_in pre = 0%nat /\
    (post = [] \/
     exists text confidence pid room,
       post = [JObj [("type", JStr "segment"); ("text", text);
                     ("confidence", confidence);
                     ("participantIdentity", pid); ("roomId", room)]]).

(** * Proofs *)

Lemma count_app p l l' : count p (l ++ l') = (count p l + count p l')%nat.
Proof. unfold count. now rewrite filter_app, length_app. Qed.

Lemma emitted_app l l' : emitted (l ++ l') = (emitted l ++ emitted l')%list.
Proof. unfold emitted. apply flat_map_app. Qed.

Lemma delivered_app l l' : delivered (l ++ l') = (delivered l ++ delivered l')%list.
Proof. unfold delivered. apply flat_map_app. Qed.

Lemma events_of_app ty l l' :
  events_of ty (l ++ l') = (events_of ty l ++ events_of ty l')%list.
Proof. unfold events_of. apply filter_app. Qed.

Lemma creations_app l l' : creations (l ++ l') = (creations l + creations l')%nat.
Proof. apply count_app. Qed.

Lemma flushes_app l l' : flushes (l ++ l') = (flushes l + flushes l')%nat.
Proof. apply count_app. Qed.

Lemma closes_app l l' : closes (l ++ l') = (closes l + closes l')%nat.
Proof. apply count_app. Qed.

Lemma errors_app l l' : errors (l ++ l') = (errors l + errors l')%nat.
Proof. unfold errors. now rewrite emitted_app, events_of_app, length_app. Qed.

Lemma transcripts_nil_app l l' :
  transcripts l = [] -> transcripts l' = [] -> transcripts (l ++ l') = [].
Proof.
  unfold transcripts. rewrite emitted_app, !events_of_app.
  intros H H'.
  apply app_eq_nil in H as [-> ->]. apply app_eq_nil in H' as [-> ->].
  reflexivity.
Qed.

Create Rewrite HintDb trace.
#[local] Hint Rewrite creations_app flushes_app closes_app errors_app
  emitted_app delivered_app events_of_app : trace.

Lemma truthy_str s : truthy (JStr s) = true <-> s <> "".
Proof.
  simpl. destruct (String.eqb_spec s ""); simpl; split; congruence.
Qed.


(** ** Case analysis of one step *)

Ltac unfold_handler :=
  unfold step, receive, handshake, receive_init, loop_body, feed,
    on_exception, finalize, call, create_recognizer, send_json, close,
    swallow, bind, lift, ret, raise, get_session, modify, py_get, print in *.

(* Split on the innermost scrutinee of a [match] in [H]. *)
Ltac break_inner H :=
  match type of H with
  | context [match ?x with _ => _ end] =>
      lazymatch x with
      | context [match _ with _ => _ end] => fail
      | _ => destruct x eqn:?
      end
  end.

Ltac open_session s :=
  let rcg := fresh "rcg" in
  let pid := fresh "pid" in
  let room := fresh "room" in
  let w := fresh "w" in
  let msgs := fresh "msgs" in
  let sends := fresh "sends" in
  let cl := fresh "cl" in
  let tr := fresh "tr" in
  destruct s as [rcg pid room w]; destruct w as [msgs sends cl tr].

(* All the paths of a step [H : step c = Some c']. *)
Ltac explore H :=
  unfold_handler; cbn in H;
  repeat (break_inner H; cbn in H; try discriminate H);
  inversion H; subst; clear H.

Ltac no_recognizer :=
  match goal with
  | H : creations ?l = 1%nat -> None = None -> False |- _ =>
      assert (creations l <> 1%nat) by (intro; now apply H)
  end.

Ltac finish :=
  unfold invariant in *;
  cbn [world_of ws log recognizer set_ws set_recognizer logged
       pop_transport pop_inbox] in *;
  autorewrite with trace in *; cbn in *; rewrite ?Nat.add_0_r in *;
  intuition (subst; cbn in *; try congruence; try lia;
             try (apply transcripts_nil_app; [ auto with zarith | reflexivity ]);
             try (no_recognizer; lia)).

Section Proofs.
Variable rt : Runtime.
Variable E : Vosk.

Lemma step_invariant (c c' : config E) :
  invariant c -> step rt c = Some c' -> invariant c'.
Proof.
  intros I H. destruct c as [p s | o w]; [ | discriminate ].
  open_session s.
  destruct p; explore H; finish.
Qed.

Lemma initial_invariant inbox0 transport0 close0 :
  invariant (initial E {| inbox := inbox0; transport := transport0;
                          close_raises := close0; log := [] |}).
Proof. unfold invariant. cbn. intuition lia. Qed.

Lemma reachable_invariant (c : config E) :
  reachable rt c -> invariant c.
Proof.
  induction 1 as [ | c c' _ IH H ].
  - apply initial_invariant.
  - exact (step_invariant c c' IH H).
Qed.

Lemma run_reachable n (c : config E) :
  reachable rt c -> reachable rt (run rt n c).
Proof.
  revert c. induction n as [ | n IH ]; intros c R; cbn.
  - exact R.
  - destruct (step rt c) as [ c' | ] eqn:H.
    + apply IH. exact (reach_step _ _ c c' R H).
    + exact R.
Qed.

Lemma step_labels_print (c c' : config E) :
  labels_print rt c -> step rt c = Some c' -> labels_print rt c'.
Proof.
  intros L H. destruct c as [p s | o w]; [ | discriminate ].
  open_session s.
  destruct p as [ | | e | pending ]; cbn [labels_print participant_identity room_id] in L.
  - explore H; cbn; auto.
  - destruct L as (Lp & Lq). explore H; cbn; auto.
  - explore H; exact I.
  - explore H; exact I.
Qed.

Lemma reachable_labels_print (c : config E) :
  reachable rt c -> labels_print rt c.
Proof.
  induction 1 as [ | c c' _ IH H ].
  - exact I.
  - exact (step_labels_print c c' IH H).
Qed.

(** ** Control frames *)


(** A text frame holding JSON that is not an object is another matter:
    [data.get] raises, and the session leaves the loop through the
    [except Exception] clause. *)
Lemma non_object_text_frame_raises (s : session E) v b rest :
  inbox (ws s) = Receive (Some (Loaded v)) b :: rest ->
  (forall fields, v <> JObj fields) ->
  exists e, step rt (Running AtLoop s)
            = Some (Running (AtExcept e) (set_ws E (pop_inbox (ws s)) s)).
Proof.
  intros Hin Hv. unfold step, receive. rewrite Hin. cbn.
  unfold bind, lift.
  destruct v; cbn; try (eexists; reflexivity).
  now destruct (Hv fields).
Qed.

(** ** The handshake *)



(** ** Audio chunks *)

Ltac same_call :=
  repeat match goal with
         | H : (_, _) = (_, _) |- _ => inversion H; subst; clear H
         | H1 : ?f = _, H2 : ?f = _ |- _ => rewrite H1 in H2
         end.

Ltac same_value :=
  repeat match goal with
         | H : inr _ = inr _ |- _ => inversion H; subst; clear H
         | H : inl _ = inr _ |- _ => discriminate H
         | H : JStr _ = JStr _ |- _ => inversion H; subst; clear H
         end.

Ltac text_cases :=
  match goal with
  | H : ?x = JStr ?t, Hn : ?t <> "", Hb : truthy ?x = false |- _ =>
      apply truthy_str in Hn; rewrite <- H in Hn; congruence
  | H : ?x = JStr "", Hb : truthy ?x = true |- _ =>
      rewrite H in Hb; discriminate Hb
  end.

(** C6 (amended): one audio chunk in the loop.  When [AcceptWaveform]
    reports no utterance boundary, the chunk emits nothing or one
    [partial] event, never a [segment]: exactly the [partial] event with
    the partial text and the session's labels when that text is non-empty
    and its log line (lines 100-102) can be written, nothing when the
    text is empty or the line cannot be written.  When it reports a
    boundary, the chunk emits nothing or one [segment] event, never a
    [partial]: exactly the [segment] event with the text, its confidence
    and the labels when the text is non-empty and its log line (lines
    82-84) can be written, nothing otherwise. *)
Theorem audio_chunk_events (s : session E) r audio rest :
  reachable rt (Running AtLoop s) ->
  recognizer s = Some r ->
  inbox (ws s) = Receive None (Some audio) :: rest ->
  let partial_ev text :=
    JObj [("type", JStr "partial"); ("text", text);
          ("participantIdentity", participant_identity s);
          ("roomId", room_id s)] in
  let segment_ev text confidence :=
    JObj [("type", JStr "segment"); ("text", text); ("confidence", confidence);
          ("participantIdentity", participant_identity s);
          ("roomId", room_id s)] in
  exists c' new,
    step rt (Running AtLoop s) = Some c' /\
    emitted (log (world_of c')) = (emitted (log (ws s)) ++ new)%list /\
    (forall r1,
        AcceptWaveform E r audio = (inr false, r1) ->
        (new = [] \/ exists text, new = [partial_ev text]) /\
        (forall res r2 partial,
            PartialResult E r1 = (inr res, r2) ->
            py_get res "partial" JNull = inr partial ->
            (truthy partial = true -> print_error rt partial = None ->
             new = [partial_ev partial]) /\
            (forall t, partial = JStr t -> t <> "" -> print_error rt partial = None ->
                       new = [partial_ev partial]) /\
            (truthy partial = false -> new = []) /\
            (partial = JStr "" -> new = []) /\
            (print_error rt partial <> None -> new = []))) /\
    (forall r1,
        AcceptWaveform E r audio = (inr true, r1) ->
        (new = [] \/ exists text confidence, new = [segment_ev text confidence]) /\
        (forall res r2 text,
            Result E r1 = (inr res, r2) ->
            py_get res "text" (JStr "") = inr text ->
            exists confidence,
              py_get res "confidence" JNull = inr confidence /\
              (truthy text = true -> print_error rt text = None ->
               new = [segment_ev text confidence]) /\
              (forall t, text = JStr t -> t <> "" -> print_error rt text = None ->
                         new = [segment_ev text confidence]) /\
              (truthy text = false -> new = []) /\
              (text = JStr "" -> new = []) /\
              (print_error rt text <> None -> new = []))).
Proof.
  intros R Hr Hin partial_ev segment_ev.
  pose proof (reachable_labels_print _ R) as (Lp & Lq).
  destruct (step rt (Running AtLoop s)) as [ c' | ] eqn:H.
  2:{ unfold step, receive in H. rewrite Hin in H.
      destruct (loop_body _ _ _ _) as [ [ ? | [ | ] ] ? ]; discriminate. }
  exists c'.
  subst partial_ev segment_ev.
  open_session s. cbn in Hr, Hin, Lp, Lq. subst.
  cbn [participant_identity room_id].
  unfold_handler; cbn in H. rewrite ?Lp, ?Lq in H. cbn in H.
  repeat (break_inner H; cbn in H; try discriminate H).
  all: inversion H; subst; clear H.
  all: cbn [world_of ws log set_ws set_recognizer logged pop_transport pop_inbox].
  all: eexists; split; [ reflexivity | ].
  all: split; [ autorewrite with trace; cbn; rewrite <- ?app_assoc; cbn;
                try reflexivity; rewrite app_nil_r; symmetry; apply app_nil_r | ].
  all: split; intros; same_call; try discriminate.
  all: (split; [ first [ left; reflexivity
                       | right; eexists; reflexivity
                       | right; do 2 eexists; reflexivity ] | ]).
  all: intros; same_call; unfold py_get in *; cbn in *; same_value.
  all: try (eexists; split; [ reflexivity | ]).
  all: repeat split; intros; subst; same_value; cbn in *;
    try reflexivity; try congruence; text_cases.
Qed.

(** ** Termination *)

Lemma stop_breaks (s : session E) m rest :
  inbox (ws s) = m :: rest ->
  is_stop m ->
  step rt (Running AtLoop s)
  = Some (Running (AtFinally None) (set_ws E (pop_inbox (ws s)) s)).
Proof.
  intros Hin (fields & b & -> & Hty).
  unfold step, receive. rewrite Hin. cbn.
  unfold bind, lift, py_get, dict_get. rewrite Hty. reflexivity.
Qed.

(** The [finally] block of a session that holds a recognizer: one flush,
    at most one [close], the inbox untouched, and the final [segment]
    emitted exactly when the flushed text is non-empty. *)
Lemma finally_with_recognizer (s : session E) r pending :
  recognizer s = Some r ->
  exists escaped w' new,
    step rt (Running (AtFinally pending) s) = Some (Finished escaped w') /\
    inbox w' = inbox (ws s) /\
    flushes (log w') = S (flushes (log (ws s))) /\
    (closes (log w') <= S (closes (log (ws s))))%nat /\
    errors (log w') = errors (log (ws s)) /\
    emitted (log w') = (emitted (log (ws s)) ++ new)%list /\
    (forall msg r', FinalResult E r = (inl msg, r') -> new = []) /\
    (forall final r' text,
        FinalResult E r = (inr final, r') ->
        py_get final "text" JNull = inr text ->
        exists confidence,
          py_get final "confidence" JNull = inr confidence /\
          new = if truthy text
                then [segment_event text confidence
                        (participant_identity s) (room_id s)]
                else []) /\
    (writable (ws s) -> delivered (log w') = (delivered (log (ws s)) ++ new)%list).
Proof.
  intros Hr.
  destruct (step rt (Running (AtFinally pending) s)) as [ c' | ] eqn:H.
  2:{ unfold step in H.
      destruct (finalize _ _) as [ [ ? | ? ] ? ]; discriminate. }
  open_session s. cbn in Hr. subst. unfold writable. cbn [ws transport].
  explore H.
  all: cbn [world_of ws log inbox set_ws set_recognizer logged pop_transport
            pop_inbox participant_identity room_id].
  all: do 3 eexists; split; [ reflexivity | ].
  all: split; [ reflexivity | ].
  all: cbn [ws log inbox set_ws logged pop_transport pop_inbox];
    autorewrite with trace; cbn.
  all: split; [ lia | ]; split; [ lia | ]; split; [ lia | ].
  all: split; [ rewrite <- ?app_assoc; cbn;
                try reflexivity; symmetry; apply app_nil_r | ].
  all: split; [ intros; same_call; try discriminate; reflexivity | ].
  all: split;
    [ intros; same_call; try discriminate; unfold py_get in *; cbn in *;
      repeat match goal with
             | H : inr _ = inr _ |- _ => inversion H; subst; clear H
             | H : inl _ = inr _ |- _ => discriminate H
             end;
      try match goal with H : truthy _ = _ |- _ => rewrite H end; eauto
    | ].
  all: intros W; try contradiction; rewrite ?app_nil_r; reflexivity.
Qed.

(** When the flush succeeds and the transport takes the write, the
    [finally] block runs to its end: [close] is called and the handler
    returns (or re-raises what was pending). *)
Lemma finally_returns (s : session E) r pending final r' text :
  recognizer s = Some r ->
  FinalResult E r = (inr final, r') ->
  py_get final "text" JNull = inr text ->
  writable (ws s) ->
  exists w',
    step rt (Running (AtFinally pending) s) = Some (Finished pending w') /\
    closes (log w') = S (closes (log (ws s))).
Proof.
  intros Hr Hf Ht W.
  open_session s. cbn in Hr. subst. unfold writable in W. cbn [ws transport] in W.
  unfold step, finalize, call, bind, get_session, lift, send_json, swallow, close, ret.
  cbn. rewrite Hf. cbn. rewrite Ht.
  destruct final; try discriminate Ht. cbn.
  destruct (truthy text); cbn.
  - destruct sends as [ | [ e | ] sends' ]; [ | contradiction | ];
      destruct cl; cbn; eexists; (split; [ reflexivity | ]);
      unfold closes, count; cbn; rewrite ?filter_app, ?length_app; cbn; lia.
  - destruct cl; cbn; eexists; (split; [ reflexivity | ]);
      unfold closes, count; cbn; rewrite ?filter_app, ?length_app; cbn; lia.
Qed.

(** The [finally] block of a session that holds a recognizer, in full:
    what it emits, and when the handler gets to [close] and returns. *)
Lemma finally_outcome (s : session E) r pending :
  recognizer s = Some r ->
  exists escaped w' new,
    step rt (Running (AtFinally pending) s) = Some (Finished escaped w') /\
    inbox w' = inbox (ws s) /\
    flushes (log w') = S (flushes (log (ws s))) /\
    emitted (log w') = (emitted (log (ws s)) ++ new)%list /\
    (new = [] \/
     exists text confidence,
       new = [segment_event text confidence (participant_identity s) (room_id s)]) /\
    (forall final r' text,
        FinalResult E r = (inr final, r') ->
        py_get final "text" JNull = inr text ->
        exists confidence,
          py_get final "confidence" JNull = inr confidence /\
          new = (if truthy text
                 then [segment_event text confidence
                         (participant_identity s) (room_id s)]
                 else []) /\
          (writable (ws s) \/ truthy text = false ->
           escaped = pending /\
           closes (log w') = S (closes (log (ws s))) /\
           (exists pre, log w' = (pre ++ [CloseCalled])%list) /\
           delivered (log w') = (delivered (log (ws s)) ++ new)%list)).
Proof.
  intros Hr.
  destruct (step rt (Running (AtFinally pending) s)) as [ c' | ] eqn:H.
  2:{ unfold step in H.
      destruct (finalize _ _) as [ [ ? | ? ] ? ]; discriminate. }
  open_session s. cbn in Hr. subst. unfold writable. cbn [ws transport].
  explore H.
  all: cbn [world_of ws log inbox set_ws set_recognizer logged pop_transport
            pop_inbox participant_identity room_id].
  all: do 3 eexists; split; [ reflexivity | ].
  all: split; [ reflexivity | ].
  all: cbn [ws log inbox set_ws logged pop_transport pop_inbox].
  all: split; [ autorewrite with trace; cbn; lia | ].
  all: split; [ autorewrite with trace; cbn; rewrite <- ?app_assoc; cbn;
                try reflexivity; symmetry; apply app_nil_r | ].
  all: split; [ first [ left; reflexivity | right; do 2 eexists; reflexivity ] | ].
  all: intros; same_call; try discriminate; unfold py_get in *; cbn in *; same_value.
  all: eexists; split; [ reflexivity | ].
  all: match goal with H : truthy _ = _ |- _ => rewrite H end.
  all: split; [ reflexivity | ].
  all: intros [ W | F ]; try contradiction; try congruence.
  all: split; [ reflexivity | ].
  all: split; [ autorewrite with trace; unfold closes, count; cbn; lia | ].
  all: split; [ eexists; reflexivity | ].
  all: autorewrite with trace; cbn; rewrite <- ?app_assoc; cbn;
    rewrite ?app_nil_r; reflexivity.
Qed.

Lemma streaming_facts (s : session E) :
  reachable rt (Running AtLoop s) ->
  (exists r, recognizer s = Some r) /\
  creations (log (ws s)) = 1%nat /\
  flushes (log (ws s)) = 0%nat /\
  closes (log (ws s)) = 0%nat /\
  errors (log (ws s)) = 0%nat.
Proof.
  intros R. apply reachable_invariant in R.
  destruct R as (_ & _ & Hr & Hc & Hf & Hcl & He). cbn in *.
  repeat split; auto.
  destruct (recognizer s) as [ r | ]; [ now exists r | congruence ].
Qed.

Lemma at_most_once (c : config E) :
  reachable rt c ->
  (creations (log (world_of c)) <= 1)%nat /\
  (flushes (log (world_of c)) <= 1)%nat /\
  (closes (log (world_of c)) <= 1)%nat /\
  (errors (log (world_of c)) <= 1)%nat.
Proof.
  intros R. apply reachable_invariant in R.
  destruct c as [ [ | | e | pending ] s | escaped w ];
    unfold invariant in R; cbn [world_of] in *.
  - destruct R as (_ & _ & -> & _). cbn. lia.
  - intuition lia.
  - intuition lia.
  - intuition lia.
  - intuition lia.
Qed.

Lemma run_finished n escaped w :
  run rt n (@Finished E escaped w) = Finished escaped w.
Proof. destruct n; reflexivity. Qed.

(** C2 (amended): a session at the top of the loop that receives a
    [stop] frame leaves the loop and runs [finally]: the handler has
    finished after two steps, the stop frame is consumed and
    [FinalResult] has been called exactly once in the session.  What is
    emitted after the frame is nothing or one [segment] event: exactly the
    event with the flushed text, its confidence and the session's labels
    when the flushed text is non-empty, nothing when it is empty.  When
    the flush returns a result and the transport takes the write (or the
    text is empty, so that nothing is written), the handler returns
    normally, [close] has been called once, as the last action, and the
    client has received what was emitted. *)
Theorem stop_frame_closes_session (s : session E) m rest :
  reachable rt (Running AtLoop s) ->
  inbox (ws s) = m :: rest ->
  is_stop m ->
  let segment_ev text confidence :=
    JObj [("type", JStr "segment"); ("text", text); ("confidence", confidence);
          ("participantIdentity", participant_identity s);
          ("roomId", room_id s)] in
  exists r escaped w' new,
    recognizer s = Some r /\
    run rt 2 (Running AtLoop s) = Finished escaped w' /\
    inbox w' = rest /\
    flushes (log w') = 1%nat /\
    emitted (log w') = (emitted (log (ws s)) ++ new)%list /\
    (new = [] \/ exists text confidence, new = [segment_ev text confidence]) /\
    (forall final r' text,
        FinalResult E r = (inr final, r') ->
        py_get final "text" JNull = inr text ->
        exists confidence,
          py_get final "confidence" JNull = inr confidence /\
          (truthy text = true -> new = [segment_ev text confidence]) /\
          (forall t, text = JStr t -> t <> "" -> new = [segment_ev text confidence]) /\
          (truthy text = false -> new = []) /\
          (text = JStr "" -> new = []) /\
          (writable (ws s) \/ truthy text = false ->
           escaped = None /\
           closes (log w') = 1%nat /\
           (exists pre, log w' = (pre ++ [CloseCalled])%list) /\
           delivered (log w') = (delivered (log (ws s)) ++ new)%list)).
Proof.
  intros R Hin Hm segment_ev.
  destruct (streaming_facts s R) as ((r & Hr) & _ & Hf & Hc & _).
  pose proof (stop_breaks s m rest Hin Hm) as H1.
  destruct (finally_outcome (set_ws E (pop_inbox (ws s)) s) r None Hr)
    as (escaped & w' & new & H2 & Hi & Hfl & Hem & Hshape & Hres).
  cbn [ws set_ws log inbox transport pop_inbox participant_identity room_id] in *.
  exists r, escaped, w', new.
  split; [ exact Hr | ].
  split; [ cbn [run]; rewrite H1, H2; reflexivity | ].
  split; [ rewrite Hi, Hin; reflexivity | ].
  split; [ lia | ].
  split; [ exact Hem | ].
  split; [ exact Hshape | ].
  intros final r' text HF HT.
  destruct (Hres final r' text HF HT) as (confidence & Hconf & Hnew & Hret).
  exists confidence. split; [ exact Hconf | ].
  split; [ intros Ht; rewrite Ht in Hnew; exact Hnew | ].
  split.
  { intros t -> Hne. apply truthy_str in Hne. rewrite Hne in Hnew. exact Hnew. }
  split; [ intros Ht; rewrite Ht in Hnew; exact Hnew | ].
  split; [ intros ->; exact Hnew | ].
  intros Hw.
  assert (Hw' : writable (set_ws E (pop_inbox (ws s)) s).(ws) \/ truthy text = false)
    by exact Hw.
  destruct (Hret Hw') as (He & Hcl & Hlast & Hdl).
  split; [ exact He | ].
  split; [ lia | ].
  split; [ exact Hlast | exact Hdl ].
Qed.

(** C8: with two [stop] frames queued, the first ends the session and
    the second is never read: it is still in the inbox when the handler
    has finished, and a finished handler takes no further step.
    [FinalResult] is called exactly once and [close] at most once; at no
    point of the run is either called twice. *)
Theorem second_stop_is_not_processed (s : session E) m1 m2 rest :
  reachable rt (Running AtLoop s) ->
  inbox (ws s) = m1 :: m2 :: rest ->
  is_stop m1 ->
  is_stop m2 ->
  exists escaped w',
    run rt 2 (Running AtLoop s) = Finished escaped w' /\
    inbox w' = m2 :: rest /\
    step rt (@Finished E escaped w') = None /\
    flushes (log w') = 1%nat /\
    (closes (log w') <= 1)%nat /\
    (forall n,
        (flushes (log (world_of (run rt n (Running AtLoop s)))) <= 1)%nat /\
        (closes (log (world_of (run rt n (Running AtLoop s)))) <= 1)%nat).
Proof.
  intros R Hin Hm1 _.
  destruct (streaming_facts s R) as ((r & Hr) & _ & Hf & Hc & _).
  pose proof (stop_breaks s m1 (m2 :: rest) Hin Hm1) as H1.
  destruct (finally_with_recognizer (set_ws E (pop_inbox (ws s)) s) r None Hr)
    as (escaped & w' & new & H2 & Hinb & Hfl & Hcl & _).
  cbn [ws set_ws log inbox pop_inbox] in *.
  exists escaped, w'.
  split; [ cbn [run]; rewrite H1, H2; reflexivity | ].
  split; [ rewrite Hinb, Hin; reflexivity | ].
  split; [ reflexivity | ].
  split; [ lia | ].
  split; [ lia | ].
  intros n.
  destruct (at_most_once _ (run_reachable n _ R)) as (_ & F & C & _).
  split; assumption.
Qed.

(** ** Errors *)

Lemma feed_failure_raises (s : session E) r audio rest msg :
  recognizer s = Some r ->
  print_error rt (participant_identity s) = None ->
  print_error rt (room_id s) = None ->
  inbox (ws s) = Receive None (Some audio) :: rest ->
  feed_raises E r audio msg ->
  exists s1,
    step rt (Running AtLoop s)
    = Some (Running (AtExcept (Exception msg)) s1) /\
    emitted (log (ws s1)) = emitted (log (ws s)) /\
    (exists r1, recognizer s1 = Some r1).
Proof.
  intros Hr Lp Lq Hin Hf.
  open_session s. cbn in Hr, Lp, Lq, Hin. subst.
  unfold step, receive, loop_body, feed, call, bind, print, get_session. cbn.
  rewrite Lp, Lq. cbn.
  destruct Hf as [ (r1 & H1) | [ (r1 & r2 & H1 & H2) | (r1 & r2 & H1 & H2) ] ];
    rewrite H1; cbn; try rewrite H2; cbn;
    eexists; (split; [ reflexivity | ]);
    cbn; autorewrite with trace; cbn; rewrite ?app_nil_r; eauto.
Qed.

Lemma except_clause_sends_error (s : session E) msg :
  exists s2,
    step rt (Running (AtExcept (Exception msg)) s)
    = Some (Running (AtFinally None) s2) /\
    emitted (log (ws s2)) = (emitted (log (ws s)) ++ [error_event msg])%list /\
    recognizer s2 = recognizer s.
Proof.
  open_session s.
  unfold step, on_exception, swallow, send_json. cbn.
  destruct sends as [ | [ e | ] sends' ]; cbn;
    eexists; (split; [ reflexivity | ]);
    cbn; autorewrite with trace; cbn; auto.
Qed.

(** C4 (amended): when feeding a chunk raises in the recognizer, the
    session leaves the loop, hands exactly one [error] event with the
    exception's message to the transport, and goes on to the [finally]
    block whether or not that write succeeds; one step later the handler
    has finished.  At no point of the session has more than one [error]
    event been emitted. *)
Theorem feed_failure_reports_error (s : session E) r audio rest msg :
  reachable rt (Running AtLoop s) ->
  recognizer s = Some r ->
  inbox (ws s) = Receive None (Some audio) :: rest ->
  feed_raises E r audio msg ->
  exists s2 escaped w',
    run rt 2 (Running AtLoop s) = Running (AtFinally None) s2 /\
    state_of (Running (AtFinally None) s2) = Terminating /\
    emitted (log (ws s2)) = (emitted (log (ws s)) ++ [error_event msg])%list /\
    run rt 3 (Running AtLoop s) = Finished escaped w' /\
    errors (log w') = 1%nat /\
    (forall n,
        (errors (log (world_of (run rt n (Running AtLoop s)))) <= 1)%nat).
Proof.
  intros R Hr Hin Hf.
  destruct (streaming_facts s R) as (_ & _ & _ & _ & He).
  pose proof (reachable_labels_print _ R) as (Lp & Lq).
  destruct (feed_failure_raises s r audio rest msg Hr Lp Lq Hin Hf)
    as (s1 & H1 & E1 & (r1 & Hr1)).
  destruct (except_clause_sends_error s1 msg) as (s2 & H2 & E2 & Hr2).
  rewrite Hr1 in Hr2.
  destruct (finally_with_recognizer s2 r1 None Hr2)
    as (escaped & w' & new & H3 & _ & _ & _ & He3 & _).
  exists s2, escaped, w'.
  split; [ cbn [run]; rewrite H1, H2; reflexivity | ].
  split; [ reflexivity | ].
  split; [ rewrite E2, E1; reflexivity | ].
  split; [ cbn [run]; rewrite H1, H2, H3; reflexivity | ].
  split.
  { rewrite He3. unfold errors in *. rewrite E2, E1, events_of_app, length_app.
    rewrite He. reflexivity. }
  intros n.
  destruct (at_most_once _ (run_reachable n _ R)) as (_ & _ & _ & B).
  exact B.
Qed.

(** ** The recognizer handle *)

(** C7 (amended): in every reachable state, the session holds no handle
    while it awaits the handshake and when it is closed, holds one while
    streaming, and in the termination phase holds one exactly when the
    handshake completed.  A handle is held only after a completed
    handshake, at most one recognizer is ever created, and when the
    handshake never completed nothing is flushed and no [segment] is
    emitted. *)
Theorem handle_lifetime (c : config E) :
  reachable rt c ->
  (state_of c = AwaitingInit -> has_handle c = false) /\
  (state_of c = Streaming -> has_handle c = true) /\
  (state_of c = Terminating -> (has_handle c = true <-> handshake_completed c)) /\
  (state_of c = Closed -> has_handle c = false) /\
  (has_handle c = true -> handshake_completed c) /\
  (creations (log (world_of c)) <= 1)%nat /\
  (~ handshake_completed c ->
   flushes (log (world_of c)) = 0%nat /\
   events_of "segment" (emitted (log (world_of c))) = []).
Proof.
  intros R. apply reachable_invariant in R.
  unfold handshake_completed.
  destruct R as (Hc & Ht & R).
  assert (Hseg : creations (log (world_of c)) <> 1%nat ->
                 events_of "segment" (emitted (log (world_of c))) = []).
  { intros N. assert (Z : creations (log (world_of c)) = 0%nat) by lia.
    apply Ht in Z. unfold transcripts in Z. now apply app_eq_nil in Z. }
  destruct c as [ [ | | e | pending ] s | escaped w ];
    cbn [state_of has_handle world_of] in *.
  - destruct R as (Hl & Hr). rewrite Hr, Hl in *. cbn.
    repeat split; intros; try discriminate; auto; lia.
  - destruct R as (Hr & Hcr & Hf & _).
    destruct (recognizer s) as [ r | ]; [ | congruence ].
    repeat split; intros; try discriminate; auto; lia.
  - destruct R as ((Hr1 & Hr2) & Hf & _).
    destruct (recognizer s) as [ r | ].
    + assert (creations (log (ws s)) = 1%nat) by (apply Hr1; discriminate).
      repeat split; intros; try discriminate; auto; lia.
    + assert (creations (log (ws s)) <> 1%nat) by (intros N; now apply Hr2 in N).
      repeat split; intros; try discriminate; auto; try lia; contradiction.
  - destruct R as ((Hr1 & Hr2) & Hf & _).
    destruct (recognizer s) as [ r | ].
    + assert (creations (log (ws s)) = 1%nat) by (apply Hr1; discriminate).
      repeat split; intros; try discriminate; auto; lia.
    + assert (creations (log (ws s)) <> 1%nat) by (intros N; now apply Hr2 in N).
      repeat split; intros; try discriminate; auto; try lia; contradiction.
  - destruct R as (Hf & _).
    repeat split; intros; try discriminate; auto; lia.
Qed.

End Proofs.

(** * The sessions of the examples *)

Lemma streaming_alice_reachable msgs sends :
  reachable toy_rt (Running AtLoop (streaming_alice msgs sends)).
Proof.
  apply (reach_step toy_rt toy_vosk
           (initial toy_vosk (script (handshake_alice :: msgs) sends))).
  - apply reach_initial.
  - reflexivity.
Qed.

(** The [finally] block when the final write is refused: the exception
    leaves the handler and [close] is not called. *)
Lemma final_send_failure_is_not_caught
    (rt : Runtime) (E : Vosk) (s : session E)
    r r' final text pending e sends :
  recognizer s = Some r ->
  FinalResult E r = (inr final, r') ->
  py_get final "text" JNull = inr text ->
  truthy text = true ->
  transport (ws s) = Some e :: sends ->
  exists w',
    step rt (Running (AtFinally pending) s) = Some (Finished (Some e) w') /\
    closes (log w') = closes (log (ws s)).
Proof.
  intros Hr Hf Ht Hy Htr.
  open_session s. cbn in Hr, Htr. subst.
  unfold step, finalize, call, bind, get_session, lift, send_json. cbn.
  rewrite Hf. cbn. rewrite Ht, Hy.
  destruct final; try discriminate Ht. cbn.
  eexists. split; [ reflexivity | ].
  cbn [log ws set_ws set_recognizer logged pop_transport].
  rewrite !closes_app. unfold closes, count. cbn. lia.
Qed.

(** C1 (what the code does instead): the client sends a handshake and one chunk
    and disconnects while the recognizer still holds the text ["done"];
    the write of the final [segment] is refused.  The failure is not
    swallowed: [WebSocketDisconnect] escapes the handler, and
    [websocket.close()] is never called. *)
Theorem final_send_failure_escapes :
  websocket_transcribe toy_rt toy_vosk 4 disconnect_with_pending_text
  = Finished (Some WebSocketDisconnect)
      {| inbox := []; transport := []; close_raises := None;
         log := [Created 16000;
                 Fed (list_byte_of_string "done");
                 AskedPartial;
                 Sent (partial_event (JStr "done") (JStr "unknown") (JStr "unknown"));
                 Flushed;
                 SendFailed (segment_event (JStr "done") JNull
                               (JStr "unknown") (JStr "unknown"))
                            WebSocketDisconnect] |}.
Proof. vm_compute. reflexivity. Qed.

(** C9: a session in which the feed raises after audio was heard.  The
    client receives the [partial] event of the first chunk, then the
    [error] event, and after it the [segment] event of the final flush;
    the handler returns normally. *)
Theorem error_event_then_final_segment :
  exists w',
    websocket_transcribe toy_rt toy_vosk 5 feed_fails_after_audio = Finished None w' /\
    delivered (log w')
    = [JObj [("type", JStr "partial"); ("text", JStr "hi");
             ("participantIdentity", JStr "unknown"); ("roomId", JStr "unknown")];
       JObj [("type", JStr "error");
             ("message", JStr "Failed to process waveform")];
       JObj [("type", JStr "segment"); ("text", JStr "hi");
             ("confidence", JNull);
             ("participantIdentity", JStr "unknown"); ("roomId", JStr "unknown")]].
Proof. eexists. split; vm_compute; reflexivity. Qed.

Lemma heard_alice_reachable msgs sends :
  reachable toy_rt (Running AtLoop (heard_alice msgs sends)).
Proof.
  apply (reach_step toy_rt toy_vosk
           (Running AtLoop (streaming_alice (audio_frame "hel" :: msgs) (None :: sends)))).
  - apply streaming_alice_reachable.
  - reflexivity.
Qed.

(** C2, as stated, fails: a stop frame does not always take the session
    to a closed connection.  With the text ["hel"] pending and the final
    write refused, the handler ends two steps after the stop frame by
    raising, without calling [close]; the same happens when the flush
    itself raises. *)
Lemma stop_without_close :
  reachable toy_rt (Running AtLoop (heard_alice [stop_frame] [Some WebSocketDisconnect])) /\
  run toy_rt 2 (Running AtLoop (heard_alice [stop_frame] [Some WebSocketDisconnect]))
  = Finished (Some WebSocketDisconnect)
      {| inbox := []; transport := []; close_raises := None;
         log := [Created 16000;
                 Fed (list_byte_of_string "hel");
                 AskedPartial;
                 Sent (JObj [("type", JStr "partial"); ("text", JStr "hel");
                             ("participantIdentity", JStr "alice");
                             ("roomId", JStr "r1")]);
                 Flushed;
                 SendFailed
                   (JObj [("type", JStr "segment"); ("text", JStr "hel");
                          ("confidence", JNull);
                          ("participantIdentity", JStr "alice");
                          ("roomId", JStr "r1")])
                   WebSocketDisconnect] |} /\
  websocket_transcribe toy_rt toy_vosk 4 flush_fails_on_stop
  = Finished (Some (Exception "Failed to flush"))
      {| inbox := []; transport := []; close_raises := None;
         log := [Created 16000; Fed [xfe]; AskedPartial; Flushed] |}.
Proof.
  split; [ apply heard_alice_reachable | ].
  split; vm_compute; reflexivity.
Qed.


(** C6, as stated, fails when the log line cannot be written: on a
    stdout that encodes ASCII only, a chunk whose partial text is the
    non-empty, non-ASCII [accented] emits no [partial] event; the [print]
    at lines 100-102 raises before the send and the session leaves the
    loop. *)
Lemma unprintable_partial_is_not_sent :
  reachable toy_rt (Running AtLoop (streaming_alice [Receive None (Some accented)] [])) /\
  AcceptWaveform toy_vosk fresh_toy accented
  = (inr false, {| toy_rate := 16000; heard := accented; broken := false |}) /\
  PartialResult toy_vosk {| toy_rate := 16000; heard := accented; broken := false |}
  = (inr (JObj [("partial", JStr (string_of_list_byte accented))]),
     {| toy_rate := 16000; heard := accented; broken := false |}) /\
  string_of_list_byte accented <> "" /\
  step toy_rt (Running AtLoop (streaming_alice [Receive None (Some accented)] []))
  = Some (Running
            (AtExcept (Exception "'ascii' codec can't encode character: ordinal not in range(128)"))
            {| recognizer :=
                 Some ({| toy_rate := 16000; heard := accented; broken := false |}
                       : handle toy_vosk);
               participant_identity := JStr "alice";
               room_id := JStr "r1";
               ws := {| inbox := []; transport := []; close_raises := None;
                        log := [Created 16000; Fed accented; AskedPartial] |} |}).
Proof.
  split; [ apply streaming_alice_reachable | ].
  repeat split; try (vm_compute; reflexivity).
  vm_compute. discriminate.
Qed.


(** C4, as stated, fails for the flush: when [FinalResult] raises in the
    [finally] block, no [error] event is sent; the exception escapes the
    handler and [close] is not called. *)
Lemma flush_failure_sends_no_error :
  websocket_transcribe toy_rt toy_vosk 4 flush_fails_on_stop
  = Finished (Some (Exception "Failed to flush"))
      {| inbox := []; transport := []; close_raises := None;
         log := [Created 16000; Fed [xfe]; AskedPartial; Flushed] |}.
Proof. vm_compute. reflexivity. Qed.

(** C7, as stated, fails: after a first frame that is not JSON the
    session is in its termination phase and holds no recognizer. *)
Lemma terminating_without_handle :
  reachable toy_rt (websocket_transcribe toy_rt toy_vosk 1 handshake_not_json) /\
  websocket_transcribe toy_rt toy_vosk 1 handshake_not_json
  = Running (AtExcept (Exception "Expecting value: line 1 column 1 (char 0)"))
      {| recognizer := None;
         participant_identity := JStr "unknown";
         room_id := JStr "unknown";
         ws := script [] [] |} /\
  state_of (websocket_transcribe toy_rt toy_vosk 1 handshake_not_json) = Terminating /\
  has_handle (websocket_transcribe toy_rt toy_vosk 1 handshake_not_json) = false /\
  ~ (has_handle (websocket_transcribe toy_rt toy_vosk 1 handshake_not_json) = true <->
     state_of (websocket_transcribe toy_rt toy_vosk 1 handshake_not_json) = Streaming \/
     state_of (websocket_transcribe toy_rt toy_vosk 1 handshake_not_json) = Terminating).
Proof.
  split; [ apply run_reachable; apply reach_initial | ].
  split; [ vm_compute; reflexivity | ].
  split; [ vm_compute; reflexivity | ].
  split; [ vm_compute; reflexivity | ].
  intros [ _ H ].
  assert (F : has_handle (websocket_transcribe toy_rt toy_vosk 1 handshake_not_json) = true)
    by (apply H; right; vm_compute; reflexivity).
  vm_compute in F. discriminate F.
Qed.

(** * Instances of the theorems *)

Lemma stop_frame_is_stop : is_stop stop_frame.
Proof.
  exists [("type", JStr "stop")], None. split; reflexivity.
Defined.

Lemma stop_frame_closes_session_witness :
  exists w',
    run toy_rt 2 (Running AtLoop (heard_alice [stop_frame] [])) = Finished None w' /\
    inbox w' = [] /\
    flushes (log w') = 1%nat /\
    closes (log w') = 1%nat /\
    delivered (log w')
    = [JObj [("type", JStr "partial"); ("text", JStr "hel");
             ("participantIdentity", JStr "alice"); ("roomId", JStr "r1")];
       JObj [("type", JStr "segment"); ("text", JStr "hel");
             ("confidence", JNull);
             ("participantIdentity", JStr "alice"); ("roomId", JStr "r1")]].
Proof.
  destruct (stop_frame_closes_session toy_rt toy_vosk
              (heard_alice [stop_frame] []) stop_frame []
              (heard_alice_reachable [stop_frame] []) eq_refl stop_frame_is_stop)
    as (r & escaped & w' & new & Hr & Hrun & Hi & Hfl & _ & _ & Hres).
  injection Hr as <-.
  destruct (Hres (JObj [("text", JStr "hel")])
              ({| toy_rate := 16000; heard := []; broken := false |} : handle toy_vosk)
              (JStr "hel") eq_refl eq_refl)
    as (confidence & Hc & Hnew & _ & _ & _ & Hret).
  injection Hc as <-.
  destruct (Hret (or_introl I)) as (-> & Hcl & _ & Hdl).
  exists w'.
  split; [ exact Hrun | ].
  split; [ exact Hi | ].
  split; [ exact Hfl | ].
  split; [ exact Hcl | ].
  rewrite Hdl, (Hnew eq_refl). reflexivity.
Defined.


Lemma feed_failure_reports_error_witness :
  exists s2 escaped w',
    run toy_rt 2 (Running AtLoop (streaming_alice [Receive None (Some [xff])] []))
    = Running (AtFinally None) s2 /\
    state_of (Running (AtFinally None) s2) = Terminating /\
    emitted (log (ws s2)) = ([] ++ [error_event "Failed to process waveform"])%list /\
    run toy_rt 3 (Running AtLoop (streaming_alice [Receive None (Some [xff])] []))
    = Finished escaped w' /\
    errors (log w') = 1%nat /\
    (forall n,
        (errors (log (world_of
           (run toy_rt n
              (Running AtLoop (streaming_alice [Receive None (Some [xff])] [])))))
         <= 1)%nat).
Proof.
  apply (feed_failure_reports_error toy_rt toy_vosk
           (streaming_alice [Receive None (Some [xff])] []) fresh_toy [xff] []
           "Failed to process waveform").
  - apply streaming_alice_reachable.
  - reflexivity.
  - reflexivity.
  - left. exists fresh_toy. reflexivity.
Defined.


Lemma audio_chunk_events_witness :
  exists c',
    step toy_rt (Running AtLoop (streaming_alice [audio_frame "hel"] [])) = Some c' /\
    emitted (log (world_of c'))
    = [JObj [("type", JStr "partial"); ("text", JStr "hel");
             ("participantIdentity", JStr "alice"); ("roomId", JStr "r1")]].
Proof.
  destruct (audio_chunk_events toy_rt toy_vosk
              (streaming_alice [audio_frame "hel"] []) fresh_toy
              (list_byte_of_string "hel") []
              (streaming_alice_reachable [audio_frame "hel"] []) eq_refl eq_refl)
    as (c' & new & Hstep & Hem & Hpartial & _).
  destruct (Hpartial
              ({| toy_rate := 16000; heard := list_byte_of_string "hel";
                  broken := false |} : handle toy_vosk) eq_refl)
    as (_ & Hres).
  destruct (Hres (JObj [("partial", JStr "hel")])
              ({| toy_rate := 16000; heard := list_byte_of_string "hel";
                  broken := false |} : handle toy_vosk)
              (JStr "hel") eq_refl eq_refl)
    as (Hnew & _).
  exists c'. split; [ exact Hstep | ].
  rewrite Hem, (Hnew eq_refl eq_refl). reflexivity.
Defined.

Lemma handle_lifetime_witness :
  has_handle (Running AtLoop (streaming_alice [] [])) = true /\
  handshake_completed (Running AtLoop (streaming_alice [] [])).
Proof.
  destruct (handle_lifetime toy_rt toy_vosk (Running AtLoop (streaming_alice [] []))
              (streaming_alice_reachable [] []))
    as (_ & H & _ & _ & C & _).
  split; [ exact (H eq_refl) | exact (C (H eq_refl)) ].
Defined.

Lemma second_stop_witness :
  exists escaped w',
    run toy_rt 2 (Running AtLoop (streaming_alice [stop_frame; stop_frame] []))
    = Finished escaped w' /\
    inbox w' = [stop_frame] /\
    step toy_rt (@Finished toy_vosk escaped w') = None /\
    flushes (log w') = 1%nat /\
    (closes (log w') <= 1)%nat /\
    (forall n,
        (flushes (log (world_of
           (run toy_rt n (Running AtLoop (streaming_alice [stop_frame; stop_frame] [])))))
         <= 1)%nat /\
        (closes (log (world_of
           (run toy_rt n (Running AtLoop (streaming_alice [stop_frame; stop_frame] [])))))
         <= 1)%nat).
Proof.
  apply (second_stop_is_not_processed toy_rt toy_vosk
           (streaming_alice [stop_frame; stop_frame] []) stop_frame stop_frame []).
  - apply streaming_alice_reachable.
  - reflexivity.
  - apply stop_frame_is_stop.
  - apply stop_frame_is_stop.
Defined.


(** * Whole sessions *)

Section Sessions.
Variable rt : Runtime.
Variable E : Vosk.

Lemma run_S n (c : config E) :
  run rt (S n) c
  = match step rt c with
    | Some c' => run rt n c'
    | None => c
    end.
Proof. reflexivity. Qed.

(** ** Failed handshakes *)


(** The [except] clauses: a disconnect is passed over in silence, any
    other exception costs one write of an [error] event, whose failure is
    dropped.  Nothing else of the session changes. *)
Lemma except_clause_trace (s : session E) e :
  exists s2 new,
    step rt (Running (AtExcept e) s) = Some (Running (AtFinally None) s2) /\
    recognizer s2 = recognizer s /\
    participant_identity s2 = participant_identity s /\
    room_id s2 = room_id s /\
    inbox (ws s2) = inbox (ws s) /\
    log (ws s2) = (log (ws s) ++ new)%list /\
    match e with
    | WebSocketDisconnect => new = []
    | Exception msg =>
        new = [Sent (error_event msg)] \/
        exists e', new = [SendFailed (error_event msg) e']
    end.
Proof.
  open_session s. destruct e as [ | msg ].
  - exists (Build_session E rcg pid room (Build_world msgs sends cl tr)), [].
    cbn. rewrite app_nil_r. repeat split; reflexivity.
  - unfold step, on_exception, swallow, send_json. cbn.
    destruct sends as [ | [ e' | ] sends' ]; cbn;
      do 2 eexists; (split; [ reflexivity | ]); cbn; repeat split; eauto.
Qed.



(** ** Leaving the loop *)

(** X2: the loop does not tell a disconnect from a stop frame: both
    [break], so from the next step on the two sessions are the same,
    flush and final [segment] included. *)
Theorem disconnect_acts_as_stop (s : session E) m rest n :
  is_stop m ->
  run rt (S n)
    (Running AtLoop (set_ws E (set_inbox (Disconnect :: rest) (ws s)) s))
  = run rt (S n)
      (Running AtLoop (set_ws E (set_inbox (m :: rest) (ws s)) s)).
Proof.
  intros Hm. rewrite !run_S.
  rewrite (stop_breaks rt E
             (set_ws E (set_inbox (m :: rest) (ws s)) s) m rest eq_refl Hm).
  reflexivity.
Qed.

(** ** How the handler finishes *)

Lemma step_tidy (c c' : config E) :
  invariant c -> tidy c -> step rt c = Some c' -> tidy c'.
Proof.
  intros I T H. destruct c as [p s | o w]; [ | discriminate ].
  open_session s.
  destruct p as [ | | e | pending ].
  - explore H; exact Logic.I.
  - explore H; cbn; auto.
  - explore H; reflexivity.
  - cbn in T. subst pending.
    destruct I as (_ & _ & _ & Hf & Hc & _). cbn [world_of ws log] in Hf, Hc.
    explore H; cbn [tidy log ws set_ws set_recognizer logged pop_transport].
    all: try (eexists; reflexivity).
    all: autorewrite with trace; rewrite Hf, Hc; split; reflexivity.
Qed.

Lemma reachable_tidy (c : config E) :
  reachable rt c -> tidy c.
Proof.
  induction 1 as [ | c c' R IH H ].
  - exact Logic.I.
  - exact (step_tidy c c' (reachable_invariant rt E c R) IH H).
Qed.

(** X3: a handler that returns has called [websocket.close()] exactly
    once, as its last action.  An exception leaves the handler only out
    of the [finally] block of a session that created its recognizer: the
    flush has been called and [close] has not. *)
Theorem handler_exit (escaped : option exn) (w : world) :
  reachable rt (@Finished E escaped w) ->
  (escaped = None ->
   closes (log w) = 1%nat /\ exists pre, log w = (pre ++ [CloseCalled])%list) /\
  (forall e, escaped = Some e ->
             closes (log w) = 0%nat /\
             flushes (log w) = 1%nat /\
             creations (log w) = 1%nat).
Proof.
  intros R.
  pose proof (reachable_tidy _ R) as T.
  pose proof (reachable_invariant rt E _ R) as (_ & _ & Hf & Hc & _).
  cbn [world_of] in Hf, Hc.
  split.
  - intros ->. cbn in T. destruct T as (pre & Hl). split; [ | eauto ].
    rewrite Hl in Hc |- *. autorewrite with trace in *. cbn in *. lia.
  - intros e ->. cbn in T. destruct T as (C & F).
    repeat split; lia.
Qed.

(** ** Event shapes and labels *)

Ltac event_shape :=
  unfold event_ok;
  solve [ left; eexists; reflexivity
        | right; left; do 2 eexists; reflexivity
        | right; right; eexists; reflexivity ].

Ltac labels_step L :=
  autorewrite with trace; cbn [emitted flat_map app];
  rewrite <- ?app_assoc; cbn [app]; rewrite ?app_nil_r;
  first [ exact L
        | apply Forall_app; split;
          [ exact L | repeat (constructor; try event_shape) ] ].

Lemma step_labelled (c c' : config E) :
  invariant c -> labelled c -> step rt c = Some c' -> labelled c'.
Proof.
  intros I L H. destruct c as [p s | o w]; [ | discriminate ].
  open_session s.
  destruct p as [ | | e | pending ].
  - destruct I as (_ & _ & Hl & _). cbn in Hl. subst.
    explore H; cbn; constructor.
  - cbn [labelled participant_identity room_id ws log] in L.
    explore H; cbn [labelled participant_identity room_id ws log set_ws
                    set_recognizer logged pop_transport pop_inbox];
      labels_step L.
  - cbn [labelled participant_identity room_id ws log] in L.
    explore H; cbn [labelled participant_identity room_id ws log set_ws
                    set_recognizer logged pop_transport pop_inbox];
      labels_step L.
  - cbn [labelled participant_identity room_id ws log] in L.
    explore H; cbn [labelled participant_identity room_id ws log set_ws
                    set_recognizer logged pop_transport pop_inbox];
      exists pid, room;
      labels_step L.
Qed.

Lemma reachable_labelled (c : config E) :
  reachable rt c -> labelled c.
Proof.
  induction 1 as [ | c c' R IH H ].
  - constructor.
  - exact (step_labelled c c' (reachable_invariant rt E c R) IH H).
Qed.

(** X4: everything a session hands to [send_json] is a [partial], a
    [segment] or an [error] event in its fixed field set, and all the
    [partial] and [segment] events of one session carry the same two
    labels: those the locals hold while the handler runs. *)
Theorem events_keep_shape_and_labels (c : config E) :
  reachable rt c ->
  exists pid room,
    Forall (event_ok pid room) (emitted (log (world_of c))) /\
    (forall p s, c = Running p s ->
                 pid = participant_identity s /\ room = room_id s).
Proof.
  intros R. pose proof (reachable_labelled c R) as L.
  destruct c as [p s | o w]; cbn in L.
  - exists (participant_identity s), (room_id s). split; [ exact L | ].
    intros p' s' Heq. injection Heq as _ <-. split; reflexivity.
  - destruct L as (pid & room & L). exists pid, room. split; [ exact L | ].
    intros p s Heq. discriminate Heq.
Qed.

(** ** Audio reaches the recognizer in order *)

Lemma fed_audio_app l l' :
  fed_audio (l ++ l') = (fed_audio l ++ fed_audio l')%list.
Proof. unfold fed_audio. apply flat_map_app. Qed.

Lemma past_loop_step (c c' : config E) :
  past_loop c ->
  step rt c = Some c' ->
  past_loop c' /\
  inbox (world_of c') = inbox (world_of c) /\
  fed_audio (log (world_of c')) = fed_audio (log (world_of c)).
Proof.
  intros P H. destruct c as [p s | o w]; [ | discriminate ].
  open_session s.
  destruct p as [ | | e | pending ]; try contradiction.
  - explore H; cbn; rewrite ?fed_audio_app; cbn; rewrite ?app_nil_r; auto.
  - explore H; cbn; rewrite ?fed_audio_app; cbn; rewrite ?app_nil_r; auto.
Qed.

Lemma past_loop_run n (c : config E) :
  past_loop c ->
  inbox (world_of (run rt n c)) = inbox (world_of c) /\
  fed_audio (log (world_of (run rt n c))) = fed_audio (log (world_of c)).
Proof.
  revert c. induction n as [ | n IH ]; intros c P; [ split; reflexivity | ].
  rewrite run_S. destruct (step rt c) as [ c' | ] eqn:H; [ | split; reflexivity ].
  destruct (past_loop_step c c' P H) as (P' & Hi & Hf).
  destruct (IH c' P') as (Hi' & Hf').
  split; congruence.
Qed.

Lemma loop_step_feeds (s : session E) c' :
  recognizer s <> None ->
  labels_print rt (Running AtLoop s) ->
  step rt (Running AtLoop s) = Some c' ->
  exists m,
    inbox (ws s) = m :: inbox (world_of c') /\
    fed_audio (log (world_of c')) = (fed_audio (log (ws s)) ++ audio_of [m])%list /\
    ((exists s', c' = Running AtLoop s' /\ recognizer s' <> None) \/ past_loop c').
Proof.
  intros Hr (Lp & Lq) H. open_session s. cbn [recognizer] in Hr.
  cbn [participant_identity room_id] in Lp, Lq.
  explore H; try congruence.
  all: eexists; split; [ reflexivity | ].
  all: cbn [world_of ws log set_ws set_recognizer logged pop_transport pop_inbox].
  all: rewrite ?fed_audio_app; cbn; rewrite ?app_nil_r.
  all: split; [ reflexivity | ].
  all: try (right; exact Logic.I).
  all: left; eexists; split; [ reflexivity | cbn; congruence ].
Qed.

Lemma loop_run_feeds n (s : session E) :
  recognizer s <> None ->
  labels_print rt (Running AtLoop s) ->
  exists consumed,
    inbox (ws s)
    = (consumed ++ inbox (world_of (run rt n (Running AtLoop s))))%list /\
    fed_audio (log (world_of (run rt n (Running AtLoop s))))
    = (fed_audio (log (ws s)) ++ audio_of consumed)%list.
Proof.
  revert s. induction n as [ | n IH ]; intros s Hr L.
  - exists []. cbn. rewrite app_nil_r. split; reflexivity.
  - rewrite run_S.
    destruct (step rt (Running AtLoop s)) as [ c' | ] eqn:H.
    + pose proof (step_labels_print rt E _ c' L H) as L'.
      destruct (loop_step_feeds s c' Hr L H) as (m & Hi & Hf & [ (s' & -> & Hr') | P ]).
      * destruct (IH s' Hr' L') as (consumed & Hi' & Hf').
        exists (m :: consumed). cbn [world_of] in Hi, Hf.
        split.
        -- rewrite Hi. cbn. now rewrite <- Hi'.
        -- rewrite Hf', Hf. unfold audio_of. cbn [flat_map].
           rewrite <- !app_assoc. reflexivity.
      * destruct (past_loop_run n c' P) as (Hi' & Hf').
        exists [m]. split.
        -- rewrite Hi, Hi'. reflexivity.
        -- rewrite Hf', Hf. reflexivity.
    + exists []. cbn. rewrite app_nil_r. split; reflexivity.
Qed.

Lemma init_step_cases (w : world) c' :
  step rt (initial E w) = Some c' ->
  exists m,
    inbox w = m :: inbox (world_of c') /\
    fed_audio (log (world_of c')) = fed_audio (log w) /\
    ((exists s', c' = Running AtLoop s' /\ recognizer s' <> None /\ m <> Disconnect) \/
     (exists e s', c' = Running (AtExcept e) s')).
Proof.
  intros H. destruct w as [msgs sends cl tr]. unfold initial in H.
  explore H.
  all: eexists; split; [ reflexivity | ].
  all: cbn [world_of ws log set_ws set_recognizer logged pop_transport pop_inbox].
  all: rewrite ?fed_audio_app; cbn; rewrite ?app_nil_r.
  all: split; [ reflexivity | ].
  all: try (right; do 2 eexists; reflexivity).
  all: left; eexists; split; [ reflexivity | split; cbn; congruence ].
Qed.

(** X5: at any point of a session, the chunks handed to
    [AcceptWaveform] are exactly the binary payloads of the frames taken
    from the inbox after the first one, in the order received: the first
    frame is never fed, a frame with text is never fed, and no binary
    frame is skipped, repeated or reordered. *)
Theorem audio_is_fed_in_order (n : nat) (w : world) :
  exists consumed,
    inbox w
    = (consumed ++ inbox (world_of (websocket_transcribe rt E n w)))%list /\
    fed_audio (log (world_of (websocket_transcribe rt E n w)))
    = (fed_audio (log w) ++ audio_of (tl consumed))%list.
Proof.
  unfold websocket_transcribe.
  destruct n as [ | n ].
  - exists []. cbn. rewrite app_nil_r. split; reflexivity.
  - rewrite run_S.
    destruct (step rt (initial E w)) as [ c' | ] eqn:H.
    + destruct (init_step_cases w c' H)
        as (m & Hi & Hf & [ (s' & -> & Hr' & _) | (e & s' & ->) ]).
      * pose proof (step_labels_print rt E (initial E w) _ Logic.I H) as L'.
        destruct (loop_run_feeds n s' Hr' L') as (consumed & Hi' & Hf').
        exists (m :: consumed). cbn [world_of tl] in *.
        split.
        -- rewrite Hi. cbn. now rewrite <- Hi'.
        -- rewrite Hf', Hf. reflexivity.
      * destruct (past_loop_run n (Running (AtExcept e) s') Logic.I) as (Hi' & Hf').
        exists [m]. cbn [tl]. split.
        -- rewrite Hi, Hi'. reflexivity.
        -- rewrite Hf', Hf. cbn. now rewrite app_nil_r.
    + exists []. cbn. rewrite app_nil_r. split; reflexivity.
Qed.

(** ** Frames that leave no trace *)



(** ** Termination *)

Lemma run_add n k (c : config E) :
  run rt (n + k) c = run rt k (run rt n c).
Proof.
  revert c. induction n as [ | n IH ]; intros c; [ reflexivity | ].
  cbn [Nat.add]. rewrite !run_S.
  destruct (step rt c) as [ c' | ] eqn:H; [ apply IH | ].
  clear IH. induction k as [ | k IHk ]; [ reflexivity | ].
  rewrite run_S, H. reflexivity.
Qed.

Lemma run_done n escaped w :
  run rt n (@Finished E escaped w) = Finished escaped w.
Proof. destruct n; reflexivity. Qed.

Lemma finally_finishes (s : session E) pending :
  exists escaped w',
    step rt (Running (AtFinally pending) s) = Some (Finished escaped w').
Proof.
  unfold step. destruct (finalize E s) as [ [ e | [] ] s' ]; eauto.
Qed.

Lemma past_loop_finishes (c : config E) n :
  past_loop c ->
  exists escaped w', run rt (2 + n) c = Finished escaped w'.
Proof.
  intros P. destruct c as [ [ | | e | pending ] s | o w ]; try contradiction.
  - destruct (except_clause_trace s e) as (s2 & new & H2 & _).
    destruct (finally_finishes s2 None) as (escaped & w' & H3).
    exists escaped, w'.
    cbn [Nat.add]. rewrite run_S, H2, run_S, H3. apply run_done.
  - destruct (finally_finishes s pending) as (escaped & w' & H3).
    exists escaped, w'.
    cbn [Nat.add]. rewrite run_S, H3. apply run_done.
  - exists o, w. apply run_done.
Qed.

Lemma loop_step_cases (s : session E) m rest :
  inbox (ws s) = m :: rest ->
  exists c',
    step rt (Running AtLoop s) = Some c' /\
    ((exists s', c' = Running AtLoop s' /\ inbox (ws s') = rest /\ ~ ends_loop m) \/
     past_loop c').
Proof.
  intros Hin.
  destruct (step rt (Running AtLoop s)) as [ c' | ] eqn:H.
  2:{ unfold step, receive in H. rewrite Hin in H.
      destruct (loop_body _ _ _) as [ [ ? | [ | ] ] ? ]; discriminate. }
  exists c'. split; [ reflexivity | ].
  open_session s. cbn in Hin. subst.
  explore H; try (right; exact Logic.I).
  all: left; eexists; split; [ reflexivity | split; [ reflexivity | ] ].
  all: intros [ Hd | (fields' & b' & Heq & Hty) ]; try discriminate.
  all: injection Heq as <- _.
  all: unfold dict_get in *; rewrite Hty in *; discriminate.
Qed.

Lemma loop_finishes (msgs : list message) :
  forall s : session E,
    inbox (ws s) = msgs ->
    Exists ends_loop msgs ->
    exists escaped w',
      run rt (length msgs + 2) (Running AtLoop s) = Finished escaped w'.
Proof.
  induction msgs as [ | m rest IH ]; intros s Hin Hex.
  - inversion Hex.
  - destruct (loop_step_cases s m rest Hin)
      as (c' & H & [ (s' & -> & Hin' & Hno) | P ]).
    + cbn [length Nat.add]. rewrite run_S, H.
      apply IH; [ exact Hin' | ].
      inversion Hex; subst; [ contradiction | assumption ].
    + cbn [length Nat.add]. rewrite run_S, H.
      rewrite Nat.add_comm. apply past_loop_finishes. exact P.
Qed.

(** X7: a session whose client disconnects at some point, or sends a
    stop frame after the handshake frame, always finishes, within as many
    steps as the inbox has frames plus two: the handler never waits once
    such a frame is queued. *)
Theorem session_finishes (w : world) :
  In Disconnect (inbox w) \/ Exists ends_loop (tl (inbox w)) ->
  exists escaped w',
    websocket_transcribe rt E (length (inbox w) + 2) w = Finished escaped w'.
Proof.
  intros Hend. unfold websocket_transcribe.
  destruct (inbox w) as [ | m rest ] eqn:Hin.
  { destruct Hend as [ [] | Hex ]; inversion Hex. }
  destruct (step rt (initial E w)) as [ c' | ] eqn:H.
  2:{ unfold step, receive, initial in H. cbn in H. rewrite Hin in H.
      destruct (handshake _ _ _ _) as [ [ ? | ? ] ? ]; discriminate. }
  cbn [length Nat.add]. rewrite run_S, H.
  destruct (init_step_cases w c' H)
    as (m' & Hi & _ & [ (s' & -> & _ & Hm) | (e & s' & ->) ]).
  - rewrite Hin in Hi. injection Hi as <- Hrest. cbn [world_of] in Hrest.
    apply loop_finishes; [ now symmetry | ].
    destruct Hend as [ [ Hd | Hd ] | Hex ]; [ congruence | | exact Hex ].
    apply Exists_exists. exists Disconnect. split; [ exact Hd | now left ].
  - rewrite Nat.add_comm. apply past_loop_finishes. exact Logic.I.
Qed.

(** ** What follows an error event *)

Lemma finally_emits (s : session E) pending :
  exists escaped w' new,
    step rt (Running (AtFinally pending) s) = Some (Finished escaped w') /\
    emitted (log w') = (emitted (log (ws s)) ++ new)%list /\
    (new = [] \/
     exists text confidence,
       new = [segment_event text confidence (participant_identity s) (room_id s)]).
Proof.
  destruct (step rt (Running (AtFinally pending) s)) as [ c' | ] eqn:H.
  2:{ destruct (finally_finishes s pending) as (? & ? & H'). congruence. }
  open_session s.
  explore H.
  all: do 3 eexists; split; [ reflexivity | ].
  all: cbn [ws log set_ws set_recognizer logged pop_transport participant_identity room_id].
  all: autorewrite with trace; cbn [emitted flat_map app];
    rewrite <- ?app_assoc; cbn [app].
  all: split; [ reflexivity | ].
  all: first [ left; reflexivity | right; do 2 eexists; reflexivity ].
Qed.

Lemma errors_in_emitted l : errors_in (emitted l) = errors l.
Proof. reflexivity. Qed.

(** X8: in the events of a session, an [error] event is the last one or
    is followed by a single [segment] event (the final flush), and there
    is no other [error] event before it: after reporting an error the
    handler sends no [partial] and no second [error]. *)
Theorem error_event_is_late (c : config E) :
  reachable rt c ->
  error_is_late (emitted (log (world_of c))) /\
  (forall s pending, c = Running (AtFinally pending) s ->
     errors (log (ws s)) = 0%nat \/
     exists pre msg,
       emitted (log (ws s))
       = (pre ++ [JObj [("type", JStr "error"); ("message", JStr msg)]])%list /\
       errors_in pre = 0%nat).
Proof.
  induction 1 as [ | c c' R IH H ].
  - split; [ left; reflexivity | discriminate ].
  - pose proof (reachable_invariant rt E c R) as I.
    pose proof (step_invariant rt E c c' I H) as I'.
    destruct c' as [ [ | | e' | pending' ] s' | escaped' w' ].
    + destruct I' as (_ & _ & Hl & _). cbn in Hl |- *. rewrite Hl.
      split; [ left; reflexivity | discriminate ].
    + destruct I' as (_ & _ & _ & _ & _ & _ & He). cbn [world_of] in *.
      split; [ left; exact He | discriminate ].
    + destruct I' as (_ & _ & _ & _ & _ & He). cbn [world_of] in *.
      split; [ left; exact He | discriminate ].
    + (* entering [finally]: from the loop or from the [except] clauses *)
      assert (Hlate :
                errors (log (ws s')) = 0%nat \/
                exists pre msg,
                  emitted (log (ws s')) = (pre ++ [error_event msg])%list /\
                  errors_in pre = 0%nat).
      { destruct c as [ [ | | e | pending ] s | o w ]; try discriminate H.
        - exfalso. open_session s. explore H.
        - left. destruct I as (_ & _ & _ & _ & _ & _ & He). cbn [world_of] in He.
          open_session s. cbn [ws log] in He.
          explore H; cbn [ws log set_ws pop_inbox]; exact He.
        - destruct I as (_ & _ & _ & _ & _ & He). cbn [world_of] in He.
          destruct (except_clause_trace s e) as (s2 & new & H2 & _ & _ & _ & _ & Hl & Hn).
          rewrite H in H2. injection H2 as _ <-.
          rewrite Hl. destruct e as [ | msg ].
          + subst new. rewrite app_nil_r. left. exact He.
          + right. exists (emitted (log (ws s))), msg.
            split; [ | exact He ].
            destruct Hn as [ -> | (e' & ->) ]; now rewrite emitted_app.
        - exfalso. unfold step in H.
          destruct (finalize E s) as [ [ ? | ? ] ? ]; discriminate. }
      split.
      * cbn [world_of]. destruct Hlate as [ He | (pre & msg & Hl & Hp) ].
        -- left. exact He.
        -- right. exists pre, msg, []. split; [ exact Hl | split; [ exact Hp | now left ] ].
      * intros s pending Heq. injection Heq as _ <-. exact Hlate.
    + (* finished: one step out of [finally] *)
      split; [ | discriminate ].
      destruct c as [ [ | | e | pending ] s | o w ]; try discriminate H;
        try (exfalso; open_session s; explore H; fail).
      destruct IH as (_ & IH). specialize (IH s pending eq_refl).
      destruct (finally_emits s pending) as (escaped & w2 & new & H2 & Hem & Hnew).
      rewrite H in H2. injection H2 as _ <-.
      cbn [world_of]. rewrite Hem.
      assert (Hz : errors_in new = 0%nat).
      { destruct Hnew as [ -> | (text & confidence & ->) ]; reflexivity. }
      destruct IH as [ He | (pre & msg & Hl & Hp) ].
      * left. unfold errors_in in *. rewrite events_of_app, length_app.
        unfold errors, errors_in in He. rewrite He. exact Hz.
      * right. exists pre, msg, new. rewrite Hl, <- app_assoc.
        split; [ reflexivity | split; [ exact Hp | ] ].
        destruct Hnew as [ -> | (text & confidence & ->) ]; [ now left | ].
        right. do 4 eexists. reflexivity.
Qed.

(** ** A refused write in the loop *)


(** ** How much a session sends *)

Lemma step_event_budget (c c' : config E) :
  step rt c = Some c' ->
  (length (emitted (log (world_of c)))
   <= length (fed_audio (log (world_of c)))
      + errors (log (world_of c)) + flushes (log (world_of c)))%nat ->
  (length (emitted (log (world_of c')))
   <= length (fed_audio (log (world_of c')))
      + errors (log (world_of c')) + flushes (log (world_of c')))%nat.
Proof.
  intros H B. destruct c as [p s | o w]; [ | discriminate ].
  open_session s. cbn [world_of ws log] in B.
  destruct p as [ | | e | pending ]; explore H.
  all: cbn [world_of ws log set_ws set_recognizer logged pop_transport pop_inbox].
  all: first [ exact B
             | autorewrite with trace; rewrite ?fed_audio_app, ?length_app; cbn; lia ].
Qed.

(** X10: a session emits at most one event for each chunk it has fed
    to the recognizer, plus at most two more (one [error], one final
    [segment]). *)
Theorem events_are_bounded_by_audio (c : config E) :
  reachable rt c ->
  (length (emitted (log (world_of c)))
   <= length (fed_audio (log (world_of c))) + 2)%nat.
Proof.
  intros R.
  destruct (at_most_once rt E c R) as (_ & Hf & _ & He).
  enough (length (emitted (log (world_of c)))
          <= length (fed_audio (log (world_of c)))
             + errors (log (world_of c)) + flushes (log (world_of c)))%nat by lia.
  clear Hf He. induction R as [ | c c' R IH H ].
  - cbn. lia.
  - exact (step_event_budget c c' H IH).
Qed.

(** ** What the later phases leave alone *)

Lemma later_steps_keep_labels (c c' : config E) :
  step rt c = Some c' ->
  forall p s, c = Running p s -> p <> AtInit ->
  forall p' s', c' = Running p' s' ->
    p' <> AtInit /\
    participant_identity s' = participant_identity s /\
    room_id s' = room_id s.
Proof.
  intros H p s -> Hp p' s' ->.
  open_session s.
  destruct p as [ | | e | pending ]; [ congruence | | | ];
    explore H; repeat split; try reflexivity; discriminate.
Qed.

(** X11: the two labels are assigned by the handshake only: once the
    handler is past it, no later step changes [participant_identity] or
    [room_id], however the session goes on. *)
Theorem labels_are_fixed_after_handshake n p (s : session E) p' s' :
  p <> AtInit ->
  run rt n (Running p s) = Running p' s' ->
  participant_identity s' = participant_identity s /\ room_id s' = room_id s.
Proof.
  revert p s. induction n as [ | n IH ]; intros p s Hp Hrun.
  - cbn in Hrun. injection Hrun as _ <-. split; reflexivity.
  - rewrite run_S in Hrun.
    destruct (step rt (Running p s)) as [ c1 | ] eqn:H.
    + destruct c1 as [ p1 s1 | o w ].
      * destruct (later_steps_keep_labels _ _ H p s eq_refl Hp p1 s1 eq_refl)
          as (Hp1 & Hpid & Hroom).
        destruct (IH p1 s1 Hp1 Hrun) as (Hpid' & Hroom').
        split; congruence.
      * rewrite run_done in Hrun. discriminate Hrun.
    + injection Hrun as _ <-. split; reflexivity.
Qed.

(** X12: once the handler has left the loop, by a stop, a disconnect
    or an exception, it takes no further frame from the inbox and feeds
    no further audio, whatever is still queued. *)
Theorem nothing_is_read_after_the_loop n (c : config E) :
  past_loop c ->
  inbox (world_of (run rt n c)) = inbox (world_of c) /\
  fed_audio (log (world_of (run rt n c))) = fed_audio (log (world_of c)) /\
  past_loop (run rt n c).
Proof.
  intros P. destruct (past_loop_run n c P) as (Hi & Hf).
  split; [ exact Hi | split; [ exact Hf | ] ].
  revert c P Hi Hf. induction n as [ | n IH ]; intros c P _ _; [ exact P | ].
  rewrite run_S. destruct (step rt c) as [ c' | ] eqn:H; [ | exact P ].
  destruct (past_loop_step c c' P H) as (P' & _).
  destruct (past_loop_run n c' P') as (Hi' & Hf').
  exact (IH c' P' Hi' Hf').
Qed.

End Sessions.

(** * Instances of the session theorems *)


Lemma disconnect_acts_as_stop_witness :
  run toy_rt 2
    (Running AtLoop
       (set_ws toy_vosk (set_inbox [Disconnect] (ws (streaming_alice [] [])))
          (streaming_alice [] [])))
  = run toy_rt 2
      (Running AtLoop
         (set_ws toy_vosk (set_inbox [stop_frame] (ws (streaming_alice [] [])))
            (streaming_alice [] []))).
Proof.
  apply (disconnect_acts_as_stop toy_rt toy_vosk (streaming_alice [] [])
           stop_frame [] 1).
  apply stop_frame_is_stop.
Defined.

Lemma handler_exit_witness :
  closes [Sent (error_event "Expecting value: line 1 column 1 (char 0)"); CloseCalled]
  = 1%nat /\
  exists pre,
    [Sent (error_event "Expecting value: line 1 column 1 (char 0)"); CloseCalled]
    = (pre ++ [CloseCalled])%list.
Proof.
  refine (proj1 (handler_exit toy_rt toy_vosk None
                   {| inbox := []; transport := []; close_raises := None;
                      log := [Sent (error_event "Expecting value: line 1 column 1 (char 0)");
                              CloseCalled] |} _) eq_refl).
  exact (run_reachable toy_rt toy_vosk 3 _
           (reach_initial toy_rt toy_vosk (inbox handshake_not_json) [] None)).
Defined.

Lemma events_keep_shape_and_labels_witness :
  Forall (event_ok (JStr "alice") (JStr "r1"))
    [JObj [("type", JStr "partial"); ("text", JStr "hel");
           ("participantIdentity", JStr "alice"); ("roomId", JStr "r1")]] /\
  exists pid room,
    Forall (event_ok pid room)
      [JObj [("type", JStr "partial"); ("text", JStr "hi");
             ("participantIdentity", JStr "unknown"); ("roomId", JStr "unknown")];
       JObj [("type", JStr "error");
             ("message", JStr "Failed to process waveform")];
       JObj [("type", JStr "segment"); ("text", JStr "hi");
             ("confidence", JNull);
             ("participantIdentity", JStr "unknown"); ("roomId", JStr "unknown")]].
Proof.
  split.
  - destruct (events_keep_shape_and_labels toy_rt toy_vosk
                (Running AtLoop (heard_alice [] []))
                (heard_alice_reachable [] []))
      as (pid & room & HF & Hl).
    destruct (Hl AtLoop (heard_alice [] []) eq_refl) as (-> & ->).
    exact HF.
  - destruct (events_keep_shape_and_labels toy_rt toy_vosk
                (websocket_transcribe toy_rt toy_vosk 5 feed_fails_after_audio)
                (run_reachable toy_rt toy_vosk 5 _
                   (reach_initial toy_rt toy_vosk (inbox feed_fails_after_audio) [] None)))
      as (pid & room & HF & _).
    exists pid, room. exact HF.
Defined.


Lemma session_finishes_witness :
  exists escaped w',
    websocket_transcribe toy_rt toy_vosk
      (length (inbox (script [handshake_alice; Disconnect] [])) + 2)
      (script [handshake_alice; Disconnect] [])
    = Finished escaped w'.
Proof.
  apply (session_finishes toy_rt toy_vosk (script [handshake_alice; Disconnect] [])).
  left. right. left. reflexivity.
Defined.

Lemma error_event_is_late_witness :
  error_is_late
    [JObj [("type", JStr "partial"); ("text", JStr "hi");
           ("participantIdentity", JStr "unknown"); ("roomId", JStr "unknown")];
     JObj [("type", JStr "error");
           ("message", JStr "Failed to process waveform")];
     JObj [("type", JStr "segment"); ("text", JStr "hi");
           ("confidence", JNull);
           ("participantIdentity", JStr "unknown"); ("roomId", JStr "unknown")]].
Proof.
  exact (proj1 (error_event_is_late toy_rt toy_vosk
                  (websocket_transcribe toy_rt toy_vosk 5 feed_fails_after_audio)
                  (run_reachable toy_rt toy_vosk 5 _
                     (reach_initial toy_rt toy_vosk
                        (inbox feed_fails_after_audio) [] None)))).
Defined.


Lemma events_are_bounded_witness :
  (length
     [JObj [("type", JStr "partial"); ("text", JStr "hi");
            ("participantIdentity", JStr "unknown"); ("roomId", JStr "unknown")];
      JObj [("type", JStr "error");
            ("message", JStr "Failed to process waveform")];
      JObj [("type", JStr "segment"); ("text", JStr "hi");
            ("confidence", JNull);
            ("participantIdentity", JStr "unknown"); ("roomId", JStr "unknown")]]
   <= length [list_byte_of_string "hi"; [xff]] + 2)%nat.
Proof.
  exact (events_are_bounded_by_audio toy_rt toy_vosk
           (websocket_transcribe toy_rt toy_vosk 5 feed_fails_after_audio)
           (run_reachable toy_rt toy_vosk 5 _
              (reach_initial toy_rt toy_vosk (inbox feed_fails_after_audio) [] None))).
Defined.

Lemma labels_are_fixed_witness :
  participant_identity (set_ws toy_vosk (pop_inbox (ws (streaming_alice [stop_frame] [])))
                          (streaming_alice [stop_frame] []))
  = participant_identity (streaming_alice [stop_frame] []) /\
  room_id (set_ws toy_vosk (pop_inbox (ws (streaming_alice [stop_frame] [])))
             (streaming_alice [stop_frame] []))
  = room_id (streaming_alice [stop_frame] []).
Proof.
  apply (labels_are_fixed_after_handshake toy_rt toy_vosk 1 AtLoop
           (streaming_alice [stop_frame] []) (AtFinally None)).
  - discriminate.
  - reflexivity.
Defined.

Lemma nothing_is_read_witness :
  inbox (world_of (run toy_rt 2
                     (Running (AtFinally None) (streaming_alice [stop_frame] []))))
  = inbox (world_of (Running (AtFinally None) (streaming_alice [stop_frame] []))) /\
  fed_audio (log (world_of (run toy_rt 2
                              (Running (AtFinally None) (streaming_alice [stop_frame] [])))))
  = fed_audio (log (world_of (Running (AtFinally None) (streaming_alice [stop_frame] [])))) /\
  past_loop (run toy_rt 2 (Running (AtFinally None) (streaming_alice [stop_frame] []))).
Proof.
  apply (nothing_is_read_after_the_loop toy_rt toy_vosk 2).
  exact I.
Defined.
